(** * avsync: the batch matcher of [src/components/BatchJob.tsx]

    A shallow embedding of the filename normalisation and matching code of
    the [BatchJob] component: [buildMatchKey], the body of [handleLoadJobs]
    and [handleAddToQueue].

    Conventions of the model.
    - A JavaScript string is a [string] of 7-bit characters: file names are
      taken in the ASCII range, where [toLowerCase], [trim] and the [i] flag
      of a regular expression are the functions written below.
    - A [Map<string, string>] is a [gmap string string]: the code only calls
      [set] and [get] on it.
    - The [RegExp] objects of the host are modelled by a backtracking
      matcher in continuation-passing style, after the matcher semantics of
      the ECMAScript specification, for the fragment of the pattern language
      described at [Node].
    - React state is a record; an event handler is a function from the state
      it closes over to the next state and the list of calls it makes to the
      outside (alerts, console, callbacks). A handler runs to its end on the
      state of the last render, and its updates are applied before the next
      handler runs; the awaits of [handleLoadJobs] are not interleaved with
      other handlers.
    - [parameters] is typed [any] in the source; the model reads its three
      fields as optional numbers (integers) and an optional boolean.
    - The clock and the random source are an oracle of the host. *)

From Stdlib Require Import Ascii NArith ZArith Numbers.DecimalString.
From Stdlib Require String.
From stdpp Require Import base option list strings gmap.

Local Open Scope nat_scope.

(** ** Strings of the host *)

Module JsString.

Definition code (c : ascii) : nat := nat_of_ascii c.

Definition isUpper (c : ascii) : bool := (65 <=? code c) && (code c <=? 90).
Definition isLower (c : ascii) : bool := (97 <=? code c) && (code c <=? 122).

Definition toLowerChar (c : ascii) : ascii :=
  if isUpper c then ascii_of_nat (code c + 32) else c.
Definition toUpperChar (c : ascii) : ascii :=
  if isLower c then ascii_of_nat (code c - 32) else c.

(** [s.toLowerCase()] *)
Fixpoint toLowerCase (s : string) : string :=
  match s with
  | EmptyString => EmptyString
  | String c s' => String (toLowerChar c) (toLowerCase s')
  end.

(** White space and line terminators: TAB, LF, VT, FF, CR, SP. *)
Definition isWhiteSpace (c : ascii) : bool :=
  let n := code c in ((9 <=? n) && (n <=? 13)) || (n =? 32).

Fixpoint trimStart (s : string) : string :=
  match s with
  | EmptyString => EmptyString
  | String c s' => if isWhiteSpace c then trimStart s' else s
  end.

Fixpoint trimEnd (s : string) : string :=
  match s with
  | EmptyString => EmptyString
  | String c s' =>
      match trimEnd s' with
      | EmptyString => if isWhiteSpace c then EmptyString else String c EmptyString
      | t => String c t
      end
  end.

(** [s.trim()] *)
Definition trim (s : string) : string := trimEnd (trimStart s).

Fixpoint strDrop (n : nat) (s : string) : string :=
  match n, s with
  | O, _ => s
  | S n', String _ s' => strDrop n' s'
  | S _, EmptyString => EmptyString
  end.

Fixpoint strTake (n : nat) (s : string) : string :=
  match n, s with
  | S n', String c s' => String c (strTake n' s')
  | _, _ => EmptyString
  end.

(** [s.substring(i, j)] for [i <= j] *)
Definition substring (i j : nat) (s : string) : string := strTake (j - i) (strDrop i s).

(** [s.endsWith(suffix)] *)
Definition endsWith (s suffix : string) : bool :=
  let n := String.length s in
  let m := String.length suffix in
  (m <=? n) && String.eqb (strDrop (n - m) s) suffix.

(** Truthiness of a string: only the empty string is falsy. *)
Definition Boolean (s : string) : bool :=
  match s with EmptyString => false | String _ _ => true end.

(** Rendering of a non-negative integer in a template literal. *)
Definition ofN (n : N) : string := NilEmpty.string_of_uint (N.to_uint n).

End JsString.

(** ** Regular expressions of the host (flags [g] and [i]) *)

Module JsRegExp.
Import JsString.

(** Members of a character class. *)
Inductive ClassAtom :=
| CChar (c : ascii)                 (* a single character *)
| CRange (lo hi : ascii)            (* lo-hi *)
| CDigit (neg : bool)               (* \d, \D *)
| CSpace (neg : bool)               (* \s, \S *)
| CWord (neg : bool).               (* \w, \W *)

(** The fragment of the pattern language: characters, [.], classes,
    escapes of punctuation and [\d \s \w \t \n \v \f \r], groups,
    alternation, the quantifiers [* + ? {n} {n,} {n,m}] and their lazy
    forms, and the assertions [^] and [$]. *)
Inductive Node :=
| NEmpty
| NChar (c : ascii)
| NDot
| NClass (neg : bool) (atoms : list ClassAtom)
| NSeq (a b : Node)
| NAlt (a b : Node)
| NRepeat (a : Node) (min : nat) (max : option nat) (greedy : bool)
| NGroup (a : Node)
| NAssertStart
| NAssertEnd.

(** Canonicalize of the [i] flag: upper-casing. *)
Definition canonicalize (c : ascii) : ascii := toUpperChar c.

Definition isDigit (c : ascii) : bool := (48 <=? code c) && (code c <=? 57).
Definition isWordChar (c : ascii) : bool :=
  isDigit c || isUpper c || isLower c || (code c =? 95).
Definition isLineTerminator (c : ascii) : bool := (code c =? 10) || (code c =? 13).

Definition inRange (lo hi c : ascii) : bool :=
  (code lo <=? code c) && (code c <=? code hi).

(** A character belongs to a class atom, ignoring case, when some member
    of the atom has the same canonical form. *)
Definition atomMatches (a : ClassAtom) (c : ascii) : bool :=
  match a with
  | CChar ch => Ascii.eqb (canonicalize ch) (canonicalize c)
  | CRange lo hi => inRange lo hi c || inRange lo hi (toUpperChar c)
                    || inRange lo hi (toLowerChar c)
  | CDigit neg => xorb neg (isDigit c)
  | CSpace neg => xorb neg (isWhiteSpace c)
  | CWord neg => xorb neg (isWordChar c)
  end.

Definition classMatches (neg : bool) (atoms : list ClassAtom) (c : ascii) : bool :=
  xorb neg (existsb (fun a => atomMatches a c) atoms).

(** The state of a match: the index reached and the input that is left. *)
Record MatchState := mkMatch { endIndex : nat; rest : string }.

Definition Continuation := MatchState -> option MatchState.
Definition Matcher := MatchState -> Continuation -> option MatchState.

Definition CharacterSetMatcher (p : ascii -> bool) : Matcher :=
  fun x c =>
    match rest x with
    | EmptyString => None
    | String ch s' => if p ch then c (mkMatch (S (endIndex x)) s') else None
    end.

(** RepeatMatcher: an iteration that consumes nothing once [min] is
    reached fails, so every further iteration shortens the input; [fuel]
    bounds the number of iterations. *)
Fixpoint RepeatMatcher (fuel : nat) (m : Matcher) (min : nat) (max : option nat)
    (greedy : bool) (x : MatchState) (c : Continuation) : option MatchState :=
  match fuel with
  | O => None
  | S fuel' =>
      match max with
      | Some O => c x
      | _ =>
          let d : Continuation := fun y =>
            if (min =? 0) && (endIndex y =? endIndex x) then None
            else RepeatMatcher fuel' m (pred min) (pred <$> max) greedy y c in
          if negb (min =? 0) then m x d
          else if negb greedy then
            match c x with
            | Some z => Some z
            | None => m x d
            end
          else
            match m x d with
            | Some z => Some z
            | None => c x
            end
      end
  end.

Fixpoint compile (r : Node) : Matcher :=
  match r with
  | NEmpty => fun x c => c x
  | NChar ch => CharacterSetMatcher (fun a => Ascii.eqb (canonicalize ch) (canonicalize a))
  | NDot => CharacterSetMatcher (fun a => negb (isLineTerminator a))
  | NClass neg atoms => CharacterSetMatcher (classMatches neg atoms)
  | NSeq a b => fun x c => compile a x (fun y => compile b y c)
  | NAlt a b => fun x c =>
      match compile a x c with
      | Some z => Some z
      | None => compile b x c
      end
  | NRepeat a min max greedy => fun x c =>
      RepeatMatcher (S (min + String.length (rest x))) (compile a) min max greedy x c
  | NGroup a => compile a
  | NAssertStart => fun x c => if endIndex x =? 0 then c x else None
  | NAssertEnd => fun x c =>
      match rest x with EmptyString => c x | String _ _ => None end
  end.

(** A regular expression object with the flags [gi]. *)
Record Regex := mkRegex { source : Node }.

(** One attempt at index [i], where [s] is the input from [i] on: the end
    index of the match. *)
Definition matchAt (re : Regex) (i : nat) (s : string) : option nat :=
  endIndex <$> compile (source re) (mkMatch i s) Some.

(** RegExpBuiltinExec from [lastIndex = i]: the first index from [i] on
    where the pattern matches, and the end of that match. *)
Fixpoint execFrom (re : Regex) (i : nat) (s : string) : option (nat * nat) :=
  match matchAt re i s with
  | Some e => Some (i, e)
  | None =>
      match s with
      | EmptyString => None
      | String _ s' => execFrom re (S i) s'
      end
  end.

Definition exec (re : Regex) (S : string) (lastIndex : nat) : option (nat * nat) :=
  if String.length S <? lastIndex then None else execFrom re lastIndex (strDrop lastIndex S).

(** The loop of [RegExp.prototype[Symbol.replace]] for a global
    expression: the results of [exec] until it returns null, [lastIndex]
    stepping over an empty match. *)
Fixpoint collectResults (fuel : nat) (re : Regex) (S : string) (lastIndex : nat)
    : list (nat * nat) :=
  match fuel with
  | O => []
  | S fuel' =>
      match exec re S lastIndex with
      | None => []
      | Some (i, e) =>
          (i, e) :: collectResults fuel' re S (if e =? i then e + 1 else e)
      end
  end.

(** The second loop of the same method, with the empty replacement. *)
Fixpoint accumulate (S : string) (results : list (nat * nat))
    (accumulated : string) (nextSourcePosition : nat) : string :=
  match results with
  | [] => accumulated +:+ strDrop nextSourcePosition S
  | (position, e) :: results' =>
      if nextSourcePosition <=? position then
        accumulate S results'
          (accumulated +:+ substring nextSourcePosition position S +:+ "") e
      else accumulate S results' accumulated nextSourcePosition
  end.

(** [S.replace(re, '')] *)
Definition replace (S : string) (re : Regex) : string :=
  accumulate S (collectResults (String.length S + 2) re S 0) "" 0.

(** *** The constructor [new RegExp(pattern, 'gi')]

      A recursive-descent reading of the pattern grammar (Disjunction,
      Alternative, Term, Atom, CharacterClass) for the fragment above.
      [None] stands for the SyntaxError the constructor throws; a pattern
      that uses syntax outside the fragment is not given a meaning and
      yields [None] as well. *)

Definition isAlphaNum (c : ascii) : bool := isDigit c || isUpper c || isLower c.

(** The character after a backslash. *)
Definition parseEscape (c : ascii) : option ClassAtom :=
  if Ascii.eqb c "d" then Some (CDigit false)
  else if Ascii.eqb c "D" then Some (CDigit true)
  else if Ascii.eqb c "s" then Some (CSpace false)
  else if Ascii.eqb c "S" then Some (CSpace true)
  else if Ascii.eqb c "w" then Some (CWord false)
  else if Ascii.eqb c "W" then Some (CWord true)
  else if Ascii.eqb c "t" then Some (CChar "009")
  else if Ascii.eqb c "n" then Some (CChar "010")
  else if Ascii.eqb c "v" then Some (CChar "011")
  else if Ascii.eqb c "f" then Some (CChar "012")
  else if Ascii.eqb c "r" then Some (CChar "013")
  else if isAlphaNum c then None
  else Some (CChar c).

Definition nodeOfAtom (a : ClassAtom) : Node :=
  match a with
  | CChar c => NChar c
  | _ => NClass false [a]
  end.

Definition readClassAtom (s : string) : option (ClassAtom * string) :=
  match s with
  | EmptyString => None
  | String "\" (String c s') => a ← parseEscape c; Some (a, s')
  | String "\" EmptyString => None
  | String c s' => Some (CChar c, s')
  end.

(** Both ends of [a-b]: a range between two characters, which must be in
    order; next to a class escape the dash stands for itself. *)
Definition classRange (a b : ClassAtom) : option (list ClassAtom) :=
  match a, b with
  | CChar lo, CChar hi =>
      if code lo <=? code hi then Some [CRange lo hi] else None
  | _, _ => Some [a; CChar "-"; b]
  end.

Fixpoint parseClassRanges (fuel : nat) (s : string) : option (list ClassAtom * string) :=
  match fuel with
  | O => None
  | S fuel' =>
      match s with
      | EmptyString => None
      | String "]" s' => Some ([], s')
      | _ =>
          '(a, s1) ← readClassAtom s;
          match s1 with
          | String "-" (String c2 s2) =>
              if Ascii.eqb c2 "]" then
                '(l, s3) ← parseClassRanges fuel' s1; Some (a :: l, s3)
              else
                '(b, s3) ← readClassAtom (String c2 s2);
                r ← classRange a b;
                '(l, s4) ← parseClassRanges fuel' s3; Some (r ++ l, s4)
          | _ => '(l, s3) ← parseClassRanges fuel' s1; Some (a :: l, s3)
          end
      end
  end.

Fixpoint parseDigits (s : string) (acc : option nat) : option nat * string :=
  match s with
  | String c s' =>
      if isDigit c
      then parseDigits s' (Some (10 * default 0 acc + (code c - 48)))
      else (acc, s)
  | EmptyString => (acc, s)
  end.

(** After [{]: [n}], [n,}] or [n,m}]. *)
Definition parseBraces (s : string) : option (nat * option nat * string) :=
  match parseDigits s None with
  | (Some n, String "}" s') => Some (n, Some n, s')
  | (Some n, String "," (String "}" s')) => Some (n, None, s')
  | (Some n, String "," s') =>
      match parseDigits s' None with
      | (Some m, String "}" s'') =>
          if n <=? m then Some (n, Some m, s'') else None
      | _ => None
      end
  | _ => None
  end.

Definition parseLazy (s : string) : bool * string :=
  match s with
  | String "?" s' => (false, s')
  | _ => (true, s)
  end.

(** The quantifier that may follow an atom. *)
Definition parseQuantifier (a : Node) (s : string) : option (Node * string) :=
  match s with
  | String "*" s' => let '(g, s'') := parseLazy s' in Some (NRepeat a 0 None g, s'')
  | String "+" s' => let '(g, s'') := parseLazy s' in Some (NRepeat a 1 None g, s'')
  | String "?" s' => let '(g, s'') := parseLazy s' in Some (NRepeat a 0 (Some 1) g, s'')
  | String "{" s' =>
      '(min, max, s'') ← parseBraces s';
      let '(g, s3) := parseLazy s'' in Some (NRepeat a min max g, s3)
  | _ => Some (a, s)
  end.

Definition mkSeq (a b : Node) : Node :=
  match b with NEmpty => a | _ => NSeq a b end.

Fixpoint parseDisjunction (fuel : nat) (s : string) : option (Node * string) :=
  match fuel with
  | O => None
  | S fuel' =>
      '(a, s1) ← parseAlternative fuel' s;
      match s1 with
      | String "|" s2 => '(b, s3) ← parseDisjunction fuel' s2; Some (NAlt a b, s3)
      | _ => Some (a, s1)
      end
  end
with parseAlternative (fuel : nat) (s : string) : option (Node * string) :=
  match fuel with
  | O => None
  | S fuel' =>
      match s with
      | EmptyString | String "|" _ | String ")" _ => Some (NEmpty, s)
      | _ =>
          '(t, s1) ← parseTerm fuel' s;
          '(r, s2) ← parseAlternative fuel' s1;
          Some (mkSeq t r, s2)
      end
  end
with parseTerm (fuel : nat) (s : string) : option (Node * string) :=
  match fuel with
  | O => None
  | S fuel' =>
      match s with
      | EmptyString => None
      | String "^" s' => Some (NAssertStart, s')
      | String "$" s' => Some (NAssertEnd, s')
      | String "(" s' =>
          '(body, s1) ←
            match s' with
            | String "?" (String ":" s'') => parseDisjunction fuel' s''
            | String "?" _ => None
            | _ => parseDisjunction fuel' s'
            end;
          match s1 with
          | String ")" s2 => parseQuantifier (NGroup body) s2
          | _ => None
          end
      | String "[" (String "^" s') =>
          '(atoms, s1) ← parseClassRanges (S (String.length s')) s';
          parseQuantifier (NClass true atoms) s1
      | String "[" s' =>
          '(atoms, s1) ← parseClassRanges (S (String.length s')) s';
          parseQuantifier (NClass false atoms) s1
      | String "." s' => parseQuantifier NDot s'
      | String "\" (String c s') =>
          a ← parseEscape c; parseQuantifier (nodeOfAtom a) s'
      | String "\" EmptyString => None
      | String c s' =>
          if existsb (Ascii.eqb c) ["*"; "+"; "?"; "{"; "}"; "]"; ")"; "|"]%char
          then None
          else parseQuantifier (NChar c) s'
      end
  end.

(** [new RegExp(pattern, 'gi')] *)
Definition new (pattern : string) : option Regex :=
  match parseDisjunction (3 * String.length pattern + 3) pattern with
  | Some (n, EmptyString) => Some (mkRegex n)
  | _ => None
  end.

End JsRegExp.

(** ** The interface of the host's regular expressions

    What [BatchJob.tsx] uses of [RegExp]: the constructor with the flags
    ['gi'], which throws a SyntaxError on a malformed pattern ([None]), and
    [String.prototype.replace] with the empty replacement. *)

Class RegExpEngine := {
  RegExp : Type;
  RegExp_new : string → option RegExp;
  String_replace : string → RegExp → string
}.

#[export] Instance fragmentEngine : RegExpEngine := {|
  RegExp := JsRegExp.Regex;
  RegExp_new := JsRegExp.new;
  String_replace := JsRegExp.replace
|}.

(** ** The component *)

Module BatchJob.
Import JsString.

Inductive Status := pending | processing | completed | failed.

Record BatchJobItem := mkItem {
  id : string;
  refVideo : string;
  foreignVideo : string;
  outputVideo : string;
  firstSegmentAdjust : Z;
  lastSegmentAdjust : Z;
  skipSubtitles : bool;
  status : Status
}.

(** The fields of [parameters] that the component reads; [None] is an
    absent field. *)
Record Parameters := mkParameters {
  p_firstSegmentAdjust : option Z;
  p_lastSegmentAdjust : option Z;
  p_noSubtitles : option bool
}.

(** [{ ref, foreign, key }], where [foreign] is null when there is no match. *)
Record PreviewRow := mkRow {
  ref : string;
  foreign : option string;
  key : string
}.

Definition DEFAULT_PATTERNS : list string :=
  [ "\.[^.]+$";
    "\[.*?\]";
    "(1080p|720p|4k)";
    "(ptbr|eng|jap|jp)";
    "[-_.\s]" ].

Definition videoExtensions : list string := [".mkv"; ".mp4"; ".avi"; ".mov"; ".m4v"].

(** [videoExtensions.some(ext => f.toLowerCase().endsWith(ext))] *)
Definition isVideo (f : string) : bool :=
  existsb (fun ext => endsWith (toLowerCase f) ext) videoExtensions.

(** [x || 0] and [x || false] on an optional field. *)
Definition orZero (x : option Z) : Z :=
  match x with Some n => if (n =? 0)%Z then 0%Z else n | None => 0%Z end.
Definition orFalse (x : option bool) : bool :=
  match x with Some b => if b then b else false | None => false end.

(** The value of [match] when it is truthy: [get] returns undefined for a
    missing key, and the empty string is falsy. *)
Definition truthy (x : option string) : option string :=
  match x with
  | Some s => if Boolean s then Some s else None
  | None => None
  end.

(** What the handlers see of the outside. [Date_now k] and [Math_random k]
    are the values of the k-th call of [Date.now()] and of [Math.random()]
    made by a run of a handler, the latter as a template literal renders
    it; [listDirectory] returns [None] when the promise is rejected. *)
Record Host := mkHost {
  listDirectory : string → option (list string);
  Date_now : nat → N;
  Math_random : nat → string
}.

Inductive Exn :=
| SyntaxError (pattern : string)
| DirectoryError (path : string).

Definition Result (A : Type) : Type := Exn + A.

Definition bind {A B} (m : Result A) (k : A → Result B) : Result B :=
  match m with inl e => inl e | inr a => k a end.

Notation "'do' x <- m ; k" := (bind m (fun x => k))
  (at level 10, x pattern, m at level 100, k at level 200).

(** The state of the component. *)
Record State := mkState {
  refFolder : string;
  foreignFolder : string;
  outputFolder : string;
  jobs : list BatchJobItem;
  patterns : list string;
  preview : list PreviewRow
}.

Record Props := mkProps {
  parameters : Parameters;
  hasOnJobsChange : bool
}.

(** The calls a handler makes to the outside. *)
Inductive Event :=
| Alert (message : string)
| ConsoleError (err : Exn)
| OnAddToQueue (jobs : list BatchJobItem)
| OnJobsChange (jobs : list BatchJobItem).

Section WithEngine.
Context `{RegExpEngine}.

(** [for (const p of patterns) key = key.replace(p, '')] *)
Fixpoint forPatterns (patterns : list RegExp) (key : string) : string :=
  match patterns with
  | [] => key
  | p :: patterns' => forPatterns patterns' (String_replace key p)
  end.

Definition buildMatchKey (filename : string) (patterns : list RegExp) : string :=
  let key := toLowerCase filename in
  let key := forPatterns patterns key in
  trim key.

(** [.map(p => new RegExp(p, 'gi'))]: the first malformed pattern throws. *)
Fixpoint mapNewRegExp (patterns : list string) : Result (list RegExp) :=
  match patterns with
  | [] => inr []
  | p :: patterns' =>
      match RegExp_new p with
      | None => inl (SyntaxError p)
      | Some re =>
          do res <- mapNewRegExp patterns'; inr (re :: res)
      end
  end.

(** [patterns.filter(Boolean).map(p => new RegExp(p, 'gi'))] *)
Definition compileRules (patterns : list string) : Result (list RegExp) :=
  mapNewRegExp (filter (fun p => Boolean p = true) patterns).

(** [for (const f of foreignVideos) foreignMap.set(buildMatchKey(f, regexes), f)] *)
Fixpoint forForeignVideos (regexes : list RegExp) (foreignVideos : list string)
    (foreignMap : gmap string string) : gmap string string :=
  match foreignVideos with
  | [] => foreignMap
  | f :: foreignVideos' =>
      forForeignVideos regexes foreignVideos'
        (<[buildMatchKey f regexes := f]> foreignMap)
  end.

Section Pass.
Variables (host : Host) (parameters : Parameters).
Variables (refFolder foreignFolder outputFolder : string).

Definition newItem (k : nat) (r match_ : string) : BatchJobItem :=
  {| id := "batch-" +:+ ofN (Date_now host k) +:+ "-" +:+ Math_random host k;
     refVideo := refFolder +:+ "/" +:+ r;
     foreignVideo := foreignFolder +:+ "/" +:+ match_;
     outputVideo := outputFolder +:+ "/" +:+ r;
     firstSegmentAdjust := orZero (p_firstSegmentAdjust parameters);
     lastSegmentAdjust := orZero (p_lastSegmentAdjust parameters);
     skipSubtitles := orFalse (p_noSubtitles parameters);
     status := pending |}.

(** [for (const r of refVideos) { ... }]; [k] counts the identifiers
    drawn so far. *)
Fixpoint forRefVideos (regexes : list RegExp) (foreignMap : gmap string string)
    (refVideos : list string) (k : nat)
    (matched : list BatchJobItem) (previewRows : list PreviewRow)
    : list BatchJobItem * list PreviewRow :=
  match refVideos with
  | [] => (matched, previewRows)
  | r :: refVideos' =>
      let key := buildMatchKey r regexes in
      let match_ := foreignMap !! key in
      let previewRows :=
        previewRows ++ [ {| ref := r; foreign := truthy match_; key := key |} ] in
      match truthy match_ with
      | Some m =>
          forRefVideos regexes foreignMap refVideos' (S k)
            (matched ++ [ newItem k r m ]) previewRows
      | None =>
          forRefVideos regexes foreignMap refVideos' k matched previewRows
      end
  end.

(** Lines 63 to 105: from the two listings to the preview rows and the
    matched items. *)
Definition matchPass (patterns : list string) (refFiles foreignFiles : list string)
    : Result (list PreviewRow * list BatchJobItem) :=
  let refVideos := filter (fun f => isVideo f = true) refFiles in
  let foreignVideos := filter (fun f => isVideo f = true) foreignFiles in
  do regexes <- compileRules patterns;
  let foreignMap := forForeignVideos regexes foreignVideos ∅ in
  let '(matched, previewRows) :=
    forRefVideos regexes foreignMap refVideos 0 [] [] in
  inr (previewRows, matched).
End Pass.

(** [onJobsChange?.(jobs)] *)
Definition onJobsChange (props : Props) (jobs : list BatchJobItem) : list Event :=
  if hasOnJobsChange props then [OnJobsChange jobs] else [].

Definition listing (host : Host) (path : string) : Result (list string) :=
  match listDirectory host path with
  | Some files => inr files
  | None => inl (DirectoryError path)
  end.

Definition handleLoadJobs (host : Host) (props : Props) (st : State)
    : State * list Event :=
  if negb (Boolean (refFolder st)) || negb (Boolean (foreignFolder st))
     || negb (Boolean (outputFolder st))
  then (st, [Alert "Please select all three folders"])
  else
    let try :=
      do refFiles <- listing host (refFolder st);
      do foreignFiles <- listing host (foreignFolder st);
      matchPass host (parameters props)
        (refFolder st) (foreignFolder st) (outputFolder st)
        (patterns st) refFiles foreignFiles in
    match try with
    | inr (previewRows, matched) =>
        ({| refFolder := refFolder st; foreignFolder := foreignFolder st;
            outputFolder := outputFolder st; jobs := matched;
            patterns := patterns st; preview := previewRows |},
         onJobsChange props matched)
    | inl err =>
        (st, [ConsoleError err; Alert "Failed to load directory contents"])
    end.

(** The button [+ Add Regex]: [setPatterns([...patterns, ''])] *)
Definition handleAddRegex (st : State) : State :=
  {| refFolder := refFolder st; foreignFolder := foreignFolder st;
     outputFolder := outputFolder st; jobs := jobs st;
     patterns := patterns st ++ [""]; preview := preview st |}.

(** The input of the rule at index [i], which is an index of the list:
    [copy[i] = e.target.value; setPatterns(copy)] *)
Definition handlePatternChange (i : nat) (value : string) (st : State) : State :=
  {| refFolder := refFolder st; foreignFolder := foreignFolder st;
     outputFolder := outputFolder st; jobs := jobs st;
     patterns := <[i := value]> (patterns st); preview := preview st |}.

Definition handleAddToQueue (props : Props) (st : State) : State * list Event :=
  if length (jobs st) =? 0 then (st, [])
  else
    ({| refFolder := refFolder st; foreignFolder := foreignFolder st;
        outputFolder := outputFolder st; jobs := [];
        patterns := patterns st; preview := [] |},
     OnAddToQueue (jobs st) :: onJobsChange props []).

(** The three folder pickers: ['ref' | 'foreign' | 'output']. *)
Inductive FolderType := FolderRef | FolderForeign | FolderOutput.

(** [handleSelectFolder(type)], where [path] is what [selectDirectory()]
    resolved to ([None] when the dialog is cancelled):
    [if (!path) return], then the setter of the folder of that type. *)
Definition handleSelectFolder (type : FolderType) (path : option string) (st : State)
    : State :=
  match truthy path with
  | None => st
  | Some path =>
      match type with
      | FolderRef =>
          {| refFolder := path; foreignFolder := foreignFolder st;
             outputFolder := outputFolder st; jobs := jobs st;
             patterns := patterns st; preview := preview st |}
      | FolderForeign =>
          {| refFolder := refFolder st; foreignFolder := path;
             outputFolder := outputFolder st; jobs := jobs st;
             patterns := patterns st; preview := preview st |}
      | FolderOutput =>
          {| refFolder := refFolder st; foreignFolder := foreignFolder st;
             outputFolder := path; jobs := jobs st;
             patterns := patterns st; preview := preview st |}
      end
  end.

(** The state of the first render: the initial values of the six
    [useState] calls. *)
Definition initialState : State :=
  {| refFolder := ""; foreignFolder := ""; outputFolder := "";
     jobs := []; patterns := DEFAULT_PATTERNS; preview := [] |}.

(** The text of the foreign cell of a row without a match, as the bytes of
    the literal in the source (three non-ASCII characters, then [ No match]). *)
Definition NO_MATCH_TEXT : string :=
  String "226" (String "128" (String "154" (String "195" (String "185"
    (String "195" (String "165" " No match")))))).

(** A [<tr>] of the preview table. *)
Record PreviewTr := mkTr {
  className : string;
  tdRef : string;
  tdForeign : string;
  tdKey : string
}.

(** [<tr className={!p.foreign ? 'no-match' : ''}>] with its three cells,
    the second one [p.foreign || NO_MATCH_TEXT]. *)
Definition renderRow (p : PreviewRow) : PreviewTr :=
  {| className := match truthy (foreign p) with None => "no-match" | Some _ => "" end;
     tdRef := ref p;
     tdForeign := match truthy (foreign p) with Some f => f | None => NO_MATCH_TEXT end;
     tdKey := key p |}.

(** The text of the button at the bottom:
    [Add {jobs.length} Job{jobs.length !== 1 ? 's' : ''} to Queue]. *)
Definition addToQueueLabel (n : nat) : string :=
  "Add " +:+ ofN (N.of_nat n) +:+ " Job" +:+ (if n =? 1 then "" else "s") +:+ " to Queue".

(** What the component renders, as far as it depends on the state: the
    values of the three folder inputs, whether the load button is disabled,
    the inputs of the rule editor, the preview table (rendered when
    [preview.length > 0]) and the add-to-queue button (rendered when
    [jobs.length > 0]) with its text. *)
Record View := mkView {
  refInput : string;
  foreignInput : string;
  outputInput : string;
  loadDisabled : bool;
  patternInputs : list string;
  previewTable : option (list PreviewTr);
  addToQueueButton : option string
}.

Definition render (st : State) : View :=
  {| refInput := refFolder st;
     foreignInput := foreignFolder st;
     outputInput := outputFolder st;
     loadDisabled := negb (Boolean (refFolder st)) || negb (Boolean (foreignFolder st))
                     || negb (Boolean (outputFolder st));
     patternInputs := patterns st;
     previewTable :=
       if 0 <? length (preview st) then Some (renderRow <$> preview st) else None;
     addToQueueButton :=
       if 0 <? length (jobs st) then Some (addToQueueLabel (length (jobs st))) else None |}.

(** What the user can do with the rendered component. [Browse] carries what
    the folder dialog returns, [LoadPreview] the host at the time of the
    click; the props are those of the render. *)
Inductive Action :=
| Browse (type : FolderType) (selected : option string)
| LoadPreview (host : Host) (props : Props)
| AddToQueue (props : Props)
| AddRegex
| EditPattern (i : nat) (value : string).

(** The control of an action is rendered and enabled. *)
Definition available (st : State) (a : Action) : bool :=
  match a with
  | Browse _ _ => true
  | LoadPreview _ _ => negb (loadDisabled (render st))
  | AddToQueue _ =>
      match addToQueueButton (render st) with Some _ => true | None => false end
  | AddRegex => true
  | EditPattern i _ => i <? length (patternInputs (render st))
  end.

(** The handler that an action runs. *)
Definition perform (a : Action) (st : State) : State * list Event :=
  match a with
  | Browse type selected => (handleSelectFolder type selected st, [])
  | LoadPreview host props => handleLoadJobs host props st
  | AddToQueue props => handleAddToQueue props st
  | AddRegex => (handleAddRegex st, [])
  | EditPattern i value => (handlePatternChange i value st, [])
  end.

(** A session: the actions in turn, each one on the state the previous one
    left; an action whose control is not there does nothing. *)
Fixpoint session (actions : list Action) (st : State) : State * list Event :=
  match actions with
  | [] => (st, [])
  | a :: actions' =>
      if available st a then
        let '(st1, events1) := perform a st in
        let '(st2, events2) := session actions' st1 in
        (st2, events1 ++ events2)
      else session actions' st
  end.

End WithEngine.
End BatchJob.

(** ** Reference definitions *)

Module Reference.
Import JsString BatchJob.

(** Rows that found a foreign match. *)
Definition matchedRows (rows : list PreviewRow) : list PreviewRow :=
  filter (fun row => is_Some (foreign row)) rows.

(** The items of a list of rows, the identifiers drawn from [k] on. *)
Fixpoint itemsOfRows (mk : nat → string → string → BatchJobItem) (k : nat)
    (rows : list PreviewRow) : list BatchJobItem :=
  match rows with
  | [] => []
  | row :: rows' =>
      match foreign row with
      | Some m => mk k (ref row) m :: itemsOfRows mk (S k) rows'
      | None => itemsOfRows mk k rows'
      end
  end.

(** An item without its identifier. *)
Definition forgetId (j : BatchJobItem) : BatchJobItem :=
  {| id := ""; refVideo := refVideo j; foreignVideo := foreignVideo j;
     outputVideo := outputVideo j; firstSegmentAdjust := firstSegmentAdjust j;
     lastSegmentAdjust := lastSegmentAdjust j; skipSubtitles := skipSubtitles j;
     status := status j |}.

Definition forgetIds (res : Result (list PreviewRow * list BatchJobItem))
    : Result (list PreviewRow * list BatchJobItem) :=
  match res with
  | inl e => inl e
  | inr (rows, items) => inr (rows, forgetId <$> items)
  end.

(** [n] add-to-queue requests in a row. *)
Fixpoint addToQueueTimes (n : nat) (props : Props) (st : State) : State * list Event :=
  match n with
  | O => (st, [])
  | S n' =>
      let '(st1, events1) := handleAddToQueue props st in
      let '(st2, events2) := addToQueueTimes n' props st1 in
      (st2, events1 ++ events2)
  end.


(** The preview row of a reference video, given the compiled rules and the
    foreign lookup. *)
Definition rowOf `{RegExpEngine} (regexes : list RegExp) (foreignMap : gmap string string)
    (r : string) : PreviewRow :=
  {| ref := r; foreign := truthy (foreignMap !! buildMatchKey r regexes);
     key := buildMatchKey r regexes |}.

(** The pending jobs are the items of the matched rows of the preview, in
    order, as some match pass built them. *)
Definition Consistent (st : State) : Prop :=
  ∃ host params refDir foreignDir outputDir,
    jobs st = itemsOfRows (newItem host params refDir foreignDir outputDir) 0 (preview st)
    ∧ Forall (fun row => truthy (foreign row) = foreign row) (preview st).

(** The rows of a rendered table that are not marked [no-match]. *)
Definition matchedTrs (table : option (list PreviewTr)) : list PreviewTr :=
  filter (fun tr => className tr = "") (default [] table).

(** The clicks on [+ Add Regex] among the actions of a session. *)
Fixpoint addRegexClicks (actions : list Action) : nat :=
  match actions with
  | [] => 0
  | AddRegex :: actions' => S (addRegexClicks actions')
  | _ :: actions' => addRegexClicks actions'
  end.

(** The characters of a string. *)
Fixpoint chars (s : string) : list ascii :=
  match s with
  | EmptyString => []
  | String c s' => c :: chars s'
  end.
End Reference.

(** ** Properties of matchers *)

Module MatcherProperties.
Import JsString JsRegExp.

(** [y] is reached from [x] by consuming input. *)
Definition Extends (x y : MatchState) : Prop :=
  endIndex x ≤ endIndex y ∧
  endIndex y + String.length (rest y) = endIndex x + String.length (rest x).

(** A matcher succeeds only through its continuation, called on a state
    reached from the one it started in. *)
Definition Sound (m : Matcher) : Prop :=
  ∀ x c z, m x c = Some z → ∃ y, Extends x y ∧ c y = Some z.

(** A matcher looks at its continuation only on the states reached from the
    one it starts in. *)
Definition Local (m : Matcher) : Prop :=
  ∀ x c1 c2, (∀ y, Extends x y → c1 y = c2 y) → m x c1 = m x c2.

(** The 256 characters. *)
Definition allAscii : list ascii := ascii_of_nat <$> seq 0 256.

(** The text of a string up to the case of its letters. *)
Fixpoint canonString (s : string) : string :=
  match s with
  | EmptyString => EmptyString
  | String c s' => String (canonicalize c) (canonString s')
  end.

(** Two states at the same index whose inputs are the same up to case. *)
Definition SameState (x y : MatchState) : Prop :=
  endIndex x = endIndex y ∧ canonString (rest x) = canonString (rest y).

Definition SameResult (o1 o2 : option MatchState) : Prop :=
  match o1, o2 with
  | Some y1, Some y2 => SameState y1 y2
  | None, None => True
  | _, _ => False
  end.

(** A property of characters that does not tell apart two characters with
    the same canonical form. *)
Definition caseBlind (p : ascii → bool) : bool :=
  forallb (fun a => forallb (fun b =>
    implb (Ascii.eqb (canonicalize a) (canonicalize b)) (Bool.eqb (p a) (p b)))
    allAscii) allAscii.

(** A matcher that cannot tell apart two inputs that differ by case only. *)
Definition CaseBlind (m : Matcher) : Prop :=
  ∀ x1 x2 c1 c2, SameState x1 x2 →
    (∀ y1 y2, SameState y1 y2 → SameResult (c1 y1) (c2 y2)) →
    SameResult (m x1 c1) (m x2 c2).

End MatcherProperties.

(** ** The match key as the specification words it *)

Module FragmentReference.
Import JsString JsRegExp.

(** Removing every occurrence of a pattern, read from left to right: where
    the pattern matches a non-empty text at the current position, the text
    is left out and the reading goes on after it ([skip] counts the
    characters of the occurrence still to leave out); elsewhere the
    character is kept. *)
Fixpoint removeFrom (re : Regex) (i : nat) (s : string) (skip : nat) : string :=
  match s with
  | EmptyString => EmptyString
  | String c s' =>
      match skip with
      | S k => removeFrom re (S i) s' k
      | O =>
          match matchAt re i s with
          | Some e =>
              if i <? e then removeFrom re (S i) s' (e - i - 1)
              else String c (removeFrom re (S i) s' 0)
          | None => String c (removeFrom re (S i) s' 0)
          end
      end
  end.

Definition removeOccurrences (re : Regex) (s : string) : string :=
  removeFrom re 0 s 0.

(** The match key as the specification words it: lower-case the file name,
    apply each rule in declaration order, each one removing every
    occurrence of its pattern, then trim. *)
Definition referenceKey (filename : string) (rules : list Regex) : string :=
  trim (foldl (fun key re => removeOccurrences re key) (toLowerCase filename) rules).

End FragmentReference.

(** ** Sample hosts and states *)

Module Samples.
Import JsString JsRegExp BatchJob.

(** The five default rules, compiled. *)
Definition defaultRegexes : list Regex :=
  Eval vm_compute in
    match compileRules (H := fragmentEngine) DEFAULT_PATTERNS with
    | inr regexes => regexes
    | inl _ => []
    end.

Definition listings (refFiles foreignFiles : list string) (path : string)
    : option (list string) :=
  if String.eqb path "/ref" then Some refFiles
  else if String.eqb path "/foreign" then Some foreignFiles
  else None.

Definition hostAt (now : N) (refFiles foreignFiles : list string) : Host :=
  {| listDirectory := listings refFiles foreignFiles;
     Date_now := fun k => (now + N.of_nat k)%N;
     Math_random := fun _ => "0.5" |}.

Definition noParameters : Parameters :=
  {| p_firstSegmentAdjust := None; p_lastSegmentAdjust := None; p_noSubtitles := None |}.

Definition stateWith (patterns : list string) : State :=
  {| refFolder := "/ref"; foreignFolder := "/foreign"; outputFolder := "/out";
     jobs := []; patterns := patterns; preview := [] |}.

(** The index, in the rule list, of the first pattern that fails to compile. *)
Fixpoint failingIndex `{RegExpEngine} (patterns : list string) (i : nat) : option nat :=
  match patterns with
  | [] => None
  | p :: patterns' =>
      if Boolean p then
        match RegExp_new p with
        | None => Some i
        | Some _ => failingIndex patterns' (S i)
        end
      else failingIndex patterns' (S i)
  end.

End Samples.

(** * Theorems *)

(** ** Properties of the match pass, for any regular-expression engine *)

Import JsString BatchJob Reference.

Section MatchPass.
Context `{RegExpEngine}.
Variables (host : Host) (params : Parameters).
Variables (refDir foreignDir outputDir : string).

Local Abbreviation newItem := (newItem host params refDir foreignDir outputDir).
Local Abbreviation forRefVideos := (forRefVideos host params refDir foreignDir outputDir).
Local Abbreviation matchPass := (matchPass host params refDir foreignDir outputDir).

Lemma forRefVideos_unfold regexes foreignMap refVideos k matched previewRows :
  forRefVideos regexes foreignMap refVideos k matched previewRows =
    (matched ++ itemsOfRows newItem k (rowOf regexes foreignMap <$> refVideos),
     previewRows ++ (rowOf regexes foreignMap <$> refVideos)).
Proof.
  revert k matched previewRows.
  induction refVideos as [|r rs IH]; intros k matched previewRows; simpl.
  - by rewrite !app_nil_r.
  - destruct (truthy (foreignMap !! buildMatchKey r regexes)) as [m|] eqn:Hm;
      rewrite IH; simpl; unfold rowOf; rewrite ?Hm, <- ?app_assoc; reflexivity.
Qed.

Lemma itemsOfRows_imap (mk : nat → string → string → BatchJobItem) k rows :
  itemsOfRows mk k rows =
    imap (fun j row => mk (k + j) (ref row) (default "" (foreign row)))
      (matchedRows rows).
Proof.
  revert k. induction rows as [|row rows IH]; intros k; [reflexivity|].
  unfold matchedRows in *. simpl. rewrite filter_cons.
  destruct (foreign row) as [m|] eqn:Hf.
  - rewrite decide_True by eauto. simpl. rewrite Nat.add_0_r, Hf. simpl.
    f_equal. rewrite IH. apply imap_ext. intros j x _. simpl.
    by rewrite Nat.add_succ_r.
  - rewrite decide_False by (intros [? ?]; done). apply IH.
Qed.

Lemma matchPass_unfold patterns regexes refFiles foreignFiles :
  compileRules patterns = inr regexes →
  matchPass patterns refFiles foreignFiles =
    let foreignMap :=
      forForeignVideos regexes (filter (fun f => isVideo f = true) foreignFiles) ∅ in
    let rows := rowOf regexes foreignMap <$> filter (fun f => isVideo f = true) refFiles in
    inr (rows, itemsOfRows newItem 0 rows).
Proof.
  intros Hc. unfold BatchJob.matchPass. rewrite Hc. simpl.
  by rewrite forRefVideos_unfold.
Qed.

(** The lookup built from the foreign videos holds, at each key, the last
    video of the list that has this key. *)
Lemma forForeignVideos_lookup regexes foreignVideos (m : gmap string string) k :
  forForeignVideos regexes foreignVideos m !! k =
    match last (filter (fun f => buildMatchKey f regexes = k) foreignVideos) with
    | Some f => Some f
    | None => m !! k
    end.
Proof.
  revert m. induction foreignVideos as [|f fs IH]; intros m; [reflexivity|].
  simpl. rewrite IH, filter_cons. case_decide as Hk.
  - rewrite last_cons. destruct (last _); [reflexivity|].
    subst k. by rewrite lookup_insert_eq.
  - destruct (last _); [reflexivity|]. by rewrite lookup_insert_ne.
Qed.

Lemma isVideo_nonempty f : isVideo f = true → Boolean f = true.
Proof. by destruct f. Qed.

Lemma forForeignVideos_truthy regexes foreignFiles k :
  truthy (forForeignVideos regexes (filter (fun f => isVideo f = true) foreignFiles) ∅ !! k)
  = forForeignVideos regexes (filter (fun f => isVideo f = true) foreignFiles) ∅ !! k.
Proof.
  rewrite forForeignVideos_lookup, lookup_empty.
  destruct (last _) as [f|] eqn:Hl; [|reflexivity].
  apply last_Some_elem_of in Hl.
  apply list_elem_of_filter in Hl as [_ Hl].
  apply list_elem_of_filter in Hl as [Hv _].
  simpl. by rewrite (isVideo_nonempty _ Hv).
Qed.

Lemma itemsOfRows_length (mk : nat → string → string → BatchJobItem) k rows :
  length (itemsOfRows mk k rows) = length (matchedRows rows).
Proof. by rewrite itemsOfRows_imap, length_imap. Qed.

Lemma itemsOfRows_app (mk : nat → string → string → BatchJobItem) k rows1 rows2 :
  itemsOfRows mk k (rows1 ++ rows2) =
    itemsOfRows mk k rows1 ++ itemsOfRows mk (k + length (matchedRows rows1)) rows2.
Proof.
  revert k. induction rows1 as [|row rows1 IH]; intros k; simpl.
  - by rewrite Nat.add_0_r.
  - unfold matchedRows in *. rewrite filter_cons.
    destruct (foreign row) as [m|] eqn:Hf.
    + rewrite decide_True by eauto. simpl. rewrite IH. do 3 f_equal. lia.
    + rewrite decide_False by (intros [? ?]; done). apply IH.
Qed.

(** The item of the row at index [i] sits at the index that counts the
    matched rows before it. *)
Lemma itemsOfRows_lookup (mk : nat → string → string → BatchJobItem) rows i row m :
  rows !! i = Some row → foreign row = Some m →
  itemsOfRows mk 0 rows !! length (matchedRows (take i rows))
  = Some (mk (length (matchedRows (take i rows))) (ref row) m).
Proof.
  intros Hi Hf.
  replace (itemsOfRows mk 0 rows)
    with (itemsOfRows mk 0 (take i rows ++ row :: drop (S i) rows))
    by (by rewrite take_drop_middle).
  rewrite itemsOfRows_app. simpl. rewrite Hf.
  rewrite <- (itemsOfRows_length mk 0 (take i rows)).
  by rewrite list_lookup_middle.
Qed.

Lemma matchedRows_take_lt rows i1 i2 row :
  i1 < i2 → rows !! i1 = Some row → is_Some (foreign row) →
  length (matchedRows (take i1 rows)) < length (matchedRows (take i2 rows)).
Proof.
  intros Hlt Hi Hf.
  assert (take i2 rows !! i1 = Some row) as Hi' by (by rewrite lookup_take_lt).
  rewrite <- (take_drop_middle _ _ _ Hi').
  rewrite take_take, Nat.min_l by lia.
  unfold matchedRows. rewrite filter_app, filter_cons, decide_True by done.
  rewrite length_app. simpl. lia.
Qed.

(** C4: when the rules compile, the match pass returns one preview row per
    filtered reference video, in the order of the filtered reference list,
    and the work items are the rows that found a foreign match, in the same
    order, the j-th of them carrying the j-th identifier. *)
Theorem matchPass_rows_and_items patterns regexes refFiles foreignFiles :
  compileRules patterns = inr regexes →
  ∃ rows items,
    matchPass patterns refFiles foreignFiles = inr (rows, items) ∧
    length rows = length (filter (fun f => isVideo f = true) refFiles) ∧
    ref <$> rows = filter (fun f => isVideo f = true) refFiles ∧
    items = imap (fun j row => newItem j (ref row) (default "" (foreign row)))
              (matchedRows rows).
Proof.
  intros Hc. eexists _, _. split; [by apply matchPass_unfold|]. simpl.
  split; [by rewrite length_fmap|]. split.
  - rewrite <- list_fmap_compose. apply list_fmap_id.
  - apply itemsOfRows_imap.
Qed.

(** C10: two filtered reference videos with the same match key each get a
    preview row of their own and, when the key is in the foreign lookup,
    a work item of their own, both paired with the one foreign file that the
    lookup holds at this key. *)
Theorem matchPass_many_to_one patterns regexes refFiles foreignFiles i1 i2 r1 r2 :
  compileRules patterns = inr regexes →
  i1 < i2 →
  filter (fun f => isVideo f = true) refFiles !! i1 = Some r1 →
  filter (fun f => isVideo f = true) refFiles !! i2 = Some r2 →
  buildMatchKey r1 regexes = buildMatchKey r2 regexes →
  let k := buildMatchKey r1 regexes in
  let foreignMap :=
    forForeignVideos regexes (filter (fun f => isVideo f = true) foreignFiles) ∅ in
  ∃ rows items,
    matchPass patterns refFiles foreignFiles = inr (rows, items) ∧
    rows !! i1 = Some {| ref := r1; foreign := foreignMap !! k; key := k |} ∧
    rows !! i2 = Some {| ref := r2; foreign := foreignMap !! k; key := k |} ∧
    ∀ f, foreignMap !! k = Some f →
      ∃ j1 j2, j1 < j2 ∧
        items !! j1 = Some (newItem j1 r1 f) ∧
        items !! j2 = Some (newItem j2 r2 f).
Proof.
  intros Hc Hlt H1 H2 Hk k foreignMap.
  eexists _, _. split; [by apply matchPass_unfold|]. simpl.
  set (rows := rowOf regexes _ <$> _).
  assert (rows !! i1 = Some {| ref := r1; foreign := foreignMap !! k; key := k |}) as Hr1.
  { unfold rows. rewrite list_lookup_fmap, H1. simpl. unfold rowOf.
    by rewrite forForeignVideos_truthy. }
  assert (rows !! i2 = Some {| ref := r2; foreign := foreignMap !! k; key := k |}) as Hr2.
  { unfold rows. rewrite list_lookup_fmap, H2. simpl. unfold rowOf.
    rewrite forForeignVideos_truthy. by rewrite <- Hk. }
  split; [done|]. split; [done|]. intros f Hf.
  exists (length (matchedRows (take i1 rows))), (length (matchedRows (take i2 rows))).
  split; [|split].
  - eapply matchedRows_take_lt; [done..|]. simpl. by rewrite Hf.
  - by apply (itemsOfRows_lookup _ _ _ _ f Hr1).
  - by apply (itemsOfRows_lookup _ _ _ _ f Hr2).
Qed.

Lemma filter_none {A} (P : A → Prop) `{∀ x, Decision (P x)} (l : list A) :
  Forall (fun x => ¬ P x) l → filter P l = [].
Proof.
  induction 1 as [|x l Hx _ IH]; [reflexivity|].
  by rewrite filter_cons, decide_False.
Qed.

(** C3: when several filtered foreign videos have the same match key, the
    lookup holds the one that comes last in the list, and every reference
    video with this key is matched to it. *)
Theorem foreign_collision_last_write_wins
    patterns regexes refFiles foreignFiles l1 f l2 :
  compileRules patterns = inr regexes →
  filter (fun f => isVideo f = true) foreignFiles = l1 ++ f :: l2 →
  Forall (fun g => buildMatchKey g regexes ≠ buildMatchKey f regexes) l2 →
  let k := buildMatchKey f regexes in
  forForeignVideos regexes (filter (fun f => isVideo f = true) foreignFiles) ∅ !! k
    = Some f ∧
  ∃ rows items,
    matchPass patterns refFiles foreignFiles = inr (rows, items) ∧
    ∀ r, r ∈ filter (fun f => isVideo f = true) refFiles →
      buildMatchKey r regexes = k →
      {| ref := r; foreign := Some f; key := k |} ∈ rows ∧
      ∃ j, items !! j = Some (newItem j r f).
Proof.
  intros Hc Hsplit Hlast k.
  assert (forForeignVideos regexes
            (filter (fun f => isVideo f = true) foreignFiles) ∅ !! k = Some f) as Hlook.
  { rewrite forForeignVideos_lookup, Hsplit, filter_app, filter_cons.
    rewrite decide_True by done. rewrite (filter_none _ l2) by done.
    by rewrite last_snoc. }
  split; [done|].
  eexists _, _. split; [by apply matchPass_unfold|]. simpl.
  intros r Hr Hk.
  assert (rowOf regexes
            (forForeignVideos regexes
               (filter (fun f => isVideo f = true) foreignFiles) ∅) r
          = {| ref := r; foreign := Some f; key := k |}) as Hrow.
  { unfold rowOf. by rewrite forForeignVideos_truthy, Hk, Hlook. }
  assert ({| ref := r; foreign := Some f; key := k |}
          ∈ rowOf regexes
              (forForeignVideos regexes
                 (filter (fun f => isVideo f = true) foreignFiles) ∅)
            <$> filter (fun f => isVideo f = true) refFiles) as Hin.
  { rewrite <- Hrow. by apply list_elem_of_fmap_2. }
  split; [done|].
  apply list_elem_of_lookup in Hin as [i Hi].
  eexists. by apply (itemsOfRows_lookup _ _ _ _ f Hi).
Qed.

Lemma rowOf_video regexes foreignFiles r :
  isVideo r = true →
  let row := rowOf regexes
    (forForeignVideos regexes (filter (fun f => isVideo f = true) foreignFiles) ∅) r in
  isVideo (ref row) = true ∧ ∀ m, foreign row = Some m → isVideo m = true.
Proof.
  intros Hr. simpl. split; [done|]. intros m.
  rewrite forForeignVideos_truthy, forForeignVideos_lookup, lookup_empty.
  destruct (last _) as [g|] eqn:Hl; [|done]. intros [= <-].
  apply last_Some_elem_of, list_elem_of_filter in Hl as [_ Hl].
  by apply list_elem_of_filter in Hl as [Hv _].
Qed.

(** C8: a file that is not a video file by its extension takes no part in
    the match pass: adding it to the reference listing or to the foreign
    listing changes nothing in the result, and no preview row has it as
    reference or as foreign match. *)
Theorem non_video_files_excluded patterns refFiles foreignFiles l1 l2 f :
  isVideo f = false →
  matchPass patterns (l1 ++ f :: l2) foreignFiles
    = matchPass patterns (l1 ++ l2) foreignFiles ∧
  matchPass patterns refFiles (l1 ++ f :: l2)
    = matchPass patterns refFiles (l1 ++ l2) ∧
  ∀ rows items, matchPass patterns refFiles foreignFiles = inr (rows, items) →
    ∀ row, row ∈ rows → ref row ≠ f ∧ foreign row ≠ Some f.
Proof.
  intros Hf.
  assert (∀ l1 l2 : list string,
            filter (fun f => isVideo f = true) (l1 ++ f :: l2)
            = filter (fun f => isVideo f = true) (l1 ++ l2)) as Hfilter.
  { intros k1 k2. rewrite !filter_app, filter_cons, decide_False; [done|].
    by rewrite Hf. }
  split; [|split].
  - unfold BatchJob.matchPass. by rewrite Hfilter.
  - unfold BatchJob.matchPass. by rewrite Hfilter.
  - intros rows items Hpass row Hrow.
    destruct (compileRules patterns) as [e|regexes] eqn:Hc.
    { unfold BatchJob.matchPass in Hpass. by rewrite Hc in Hpass. }
    rewrite (matchPass_unfold _ _ _ _ Hc) in Hpass. simpl in Hpass.
    injection Hpass as <- _.
    apply list_elem_of_fmap in Hrow as (r & -> & Hr).
    apply list_elem_of_filter in Hr as [Hr _].
    destruct (rowOf_video regexes foreignFiles r Hr) as [Hv Hm].
    split.
    + intros E. rewrite E in Hv. congruence.
    + intros E. specialize (Hm _ E). congruence.
Qed.

Lemma mapNewRegExp_invalid (l : list string) p :
  p ∈ l → RegExp_new p = None →
  ∃ q, q ∈ l ∧ RegExp_new q = None ∧ mapNewRegExp l = inl (SyntaxError q).
Proof.
  intros Hin Hp. induction l as [|a l IH]; [by apply elem_of_nil in Hin|].
  simpl. destruct (RegExp_new a) as [re|] eqn:Ha.
  - apply elem_of_cons in Hin as [->|Hin]; [congruence|].
    destruct (IH Hin) as (q & Hq & Hnone & ->).
    exists q. split; [by right|done].
  - exists a. split; [by left|done].
Qed.

Lemma compileRules_skip_empty patterns1 patterns2 :
  compileRules (patterns1 ++ "" :: patterns2) = compileRules (patterns1 ++ patterns2).
Proof. unfold compileRules. by rewrite !filter_app, filter_cons, decide_False. Qed.


End MatchPass.

Section Handlers.
Context `{RegExpEngine}.

Lemma forgetId_itemsOfRows (mk1 mk2 : nat → string → string → BatchJobItem) rows :
  (∀ k r m, forgetId (mk1 k r m) = forgetId (mk2 k r m)) →
  ∀ k, forgetId <$> itemsOfRows mk1 k rows = forgetId <$> itemsOfRows mk2 k rows.
Proof.
  intros Hmk. induction rows as [|row rows IH]; intros k; [reflexivity|].
  simpl. destruct (foreign row); [|apply IH].
  simpl. by rewrite Hmk, IH.
Qed.

Lemma itemsOfRows_ext (mk1 mk2 : nat → string → string → BatchJobItem) rows :
  (∀ k r m, mk1 k r m = mk2 k r m) →
  ∀ k, itemsOfRows mk1 k rows = itemsOfRows mk2 k rows.
Proof.
  intros Hmk. induction rows as [|row rows IH]; intros k; [reflexivity|].
  simpl. destruct (foreign row); [|apply IH]. by rewrite Hmk, IH.
Qed.

(** C2 (amended): for the same name lists, rules, folders and parameters,
    two runs of the match pass fail alike or return the same preview rows
    and work items that agree in every field but the identifier, which is
    built from the clock and the random source of the run; when these
    return the same values in both runs, the identifiers agree as well. *)
Theorem matchPass_deterministic_up_to_ids host1 host2 params
    refDir foreignDir outputDir patterns refFiles foreignFiles :
  forgetIds (matchPass host1 params refDir foreignDir outputDir
               patterns refFiles foreignFiles)
  = forgetIds (matchPass host2 params refDir foreignDir outputDir
                 patterns refFiles foreignFiles) ∧
  ((∀ k, Date_now host1 k = Date_now host2 k) →
   (∀ k, Math_random host1 k = Math_random host2 k) →
   matchPass host1 params refDir foreignDir outputDir patterns refFiles foreignFiles
   = matchPass host2 params refDir foreignDir outputDir patterns refFiles foreignFiles).
Proof.
  destruct (compileRules patterns) as [e|regexes] eqn:Hc.
  - unfold matchPass. by rewrite Hc.
  - rewrite !(matchPass_unfold _ _ _ _ _ _ _ _ _ Hc). simpl. split.
    + do 2 f_equal. by apply forgetId_itemsOfRows.
    + intros Hnow Hrandom. do 2 f_equal. apply itemsOfRows_ext.
      intros k r m. unfold newItem. by rewrite Hnow, Hrandom.
Qed.

(** C6 (amended): when a non-empty pattern is rejected by the constructor,
    the match pass fails with the SyntaxError of a rejected pattern
    whatever the listings are, the handler leaves the state as it was, and
    what it reports is the error on the console and a fixed alert text. *)
Theorem invalid_pattern_blocks_pass host props st p :
  p ∈ patterns st → Boolean p = true → RegExp_new p = None →
  ∃ q, q ∈ patterns st ∧ Boolean q = true ∧ RegExp_new q = None ∧
    (∀ refFiles foreignFiles,
       matchPass host (parameters props)
         (refFolder st) (foreignFolder st) (outputFolder st)
         (patterns st) refFiles foreignFiles = inl (SyntaxError q)) ∧
    (handleLoadJobs host props st).1 = st ∧
    ((handleLoadJobs host props st).2 = [Alert "Please select all three folders"] ∨
     ∃ err, (handleLoadJobs host props st).2
            = [ConsoleError err; Alert "Failed to load directory contents"]) ∧
    (Boolean (refFolder st) = true → Boolean (foreignFolder st) = true →
     Boolean (outputFolder st) = true →
     is_Some (listDirectory host (refFolder st)) →
     is_Some (listDirectory host (foreignFolder st)) →
     (handleLoadJobs host props st).2
     = [ConsoleError (SyntaxError q); Alert "Failed to load directory contents"]).
Proof.
  intros Hin Hne Hnone.
  destruct (mapNewRegExp_invalid (filter (fun p => Boolean p = true) (patterns st)) p)
    as (q & Hq & Hqn & Hmap); [by apply list_elem_of_filter|done|].
  apply list_elem_of_filter in Hq as [Hq1 Hq2].
  assert (∀ refFiles foreignFiles,
            matchPass host (parameters props)
              (refFolder st) (foreignFolder st) (outputFolder st)
              (patterns st) refFiles foreignFiles = inl (SyntaxError q)) as Hpass.
  { intros. unfold matchPass, compileRules. by rewrite Hmap. }
  exists q. do 4 (split; [done|]).
  unfold handleLoadJobs.
  destruct (Boolean (refFolder st)), (Boolean (foreignFolder st)),
    (Boolean (outputFolder st)); simpl;
    try (split; [done|]; split; [by left|]; intros; done).
  unfold listing.
  destruct (listDirectory host (refFolder st)) as [refFiles|]; simpl;
    [|split; [done|]; split; [by eauto|]; intros _ _ _ Hs; by destruct Hs].
  destruct (listDirectory host (foreignFolder st)) as [foreignFiles|]; simpl;
    [|split; [done|]; split; [by eauto|]; intros _ _ _ _ Hs; by destruct Hs].
  rewrite Hpass. split; [done|]. split; [by eauto|done].
Qed.

(** C9: [onAddToQueue] is called only with a non-empty job list, the one of
    the state; the call leaves the job list and the preview empty, and any
    number of further add-to-queue requests makes no call at all. *)
Theorem handleAddToQueue_hands_over_once props st :
  (∀ js, OnAddToQueue js ∈ (handleAddToQueue props st).2 →
         js = jobs st ∧ js ≠ [] ∧
         jobs (handleAddToQueue props st).1 = [] ∧
         preview (handleAddToQueue props st).1 = []) ∧
  (jobs st ≠ [] →
     (handleAddToQueue props st).2 = OnAddToQueue (jobs st) :: onJobsChange props []) ∧
  (jobs st = [] → handleAddToQueue props st = (st, [])) ∧
  (∀ n, addToQueueTimes n props (handleAddToQueue props st).1
        = ((handleAddToQueue props st).1, [])).
Proof.
  assert (∀ n st', jobs st' = [] → addToQueueTimes n props st' = (st', [])) as Hidle.
  { induction n as [|n IH]; intros st' Hj; [reflexivity|].
    simpl. unfold handleAddToQueue. rewrite Hj. simpl. by rewrite IH. }
  unfold handleAddToQueue.
  destruct (jobs st) as [|j js'] eqn:Hj; simpl.
  - split; [|split; [done|split; [done|]]].
    + intros js Hin. by apply elem_of_nil in Hin.
    + intros n. by apply Hidle.
  - split; [|split; [done|split; [done|]]].
    + intros js Hin. apply elem_of_cons in Hin as [[= ->]|Hin]; [done|].
      unfold onJobsChange in Hin. destruct (hasOnJobsChange props).
      * apply list_elem_of_singleton in Hin. discriminate.
      * by apply elem_of_nil in Hin.
    + intros n. by apply Hidle.
Qed.

End Handlers.

(** ** The regular expressions of the fragment *)

Section StringFacts.

Lemma append_nil_r s : s +:+ "" = s.
Proof. induction s as [|c s IH]; [reflexivity|]. unfold String.app in *. simpl. by rewrite IH. Qed.

Lemma append_cons c s t : String c s +:+ t = String c (s +:+ t).
Proof. reflexivity. Qed.

Lemma append_assoc s t u : (s +:+ t) +:+ u = s +:+ t +:+ u.
Proof. induction s as [|c s IH]; [reflexivity|]. by rewrite !append_cons, IH. Qed.

Lemma length_append s t : String.length (s +:+ t) = String.length s + String.length t.
Proof. induction s as [|c s IH]; [reflexivity|]. rewrite append_cons. simpl. by rewrite IH. Qed.

Lemma strDrop_nil n : strDrop n "" = "".
Proof. by destruct n. Qed.

Lemma strTake_nil n : strTake n "" = "".
Proof. by destruct n. Qed.

Lemma strDrop_strDrop a b s : strDrop a (strDrop b s) = strDrop (b + a) s.
Proof.
  revert s. induction b as [|b IH]; intros s; [reflexivity|].
  destruct s as [|c s]; simpl; [apply strDrop_nil|apply IH].
Qed.

Lemma strTake_strDrop n s : strTake n s +:+ strDrop n s = s.
Proof.
  revert s. induction n as [|n IH]; intros [|c s]; try reflexivity.
  simpl. by rewrite append_cons, IH.
Qed.

Lemma strTake_add a b s : strTake a s +:+ strTake b (strDrop a s) = strTake (a + b) s.
Proof.
  revert s. induction a as [|a IH]; intros s; [reflexivity|].
  destruct s as [|c s]; simpl; [by rewrite strTake_nil|].
  by rewrite append_cons, IH.
Qed.

Lemma strTake_all n s : String.length s ≤ n → strTake n s = s.
Proof.
  revert s. induction n as [|n IH]; intros [|c s] Hn; simpl in *; try done; [lia|].
  rewrite IH; [done|lia].
Qed.

Lemma strDrop_all n s : String.length s ≤ n → strDrop n s = "".
Proof.
  revert s. induction n as [|n IH]; intros [|c s] Hn; simpl in *; try done; [lia|].
  apply IH. lia.
Qed.

Lemma length_strDrop n s : String.length (strDrop n s) = String.length s - n.
Proof.
  revert s. induction n as [|n IH]; intros [|c s]; simpl; done.
Qed.

End StringFacts.

Section MatcherFacts.
Import JsRegExp MatcherProperties.

Lemma Extends_refl x : Extends x x.
Proof. by split. Qed.

Lemma Extends_trans x y z : Extends x y → Extends y z → Extends x z.
Proof. unfold Extends. lia. Qed.

Lemma CharacterSetMatcher_sound p : Sound (CharacterSetMatcher p).
Proof.
  intros [i s] c z. unfold CharacterSetMatcher. simpl.
  destruct s as [|ch s']; [done|]. destruct (p ch); [|done].
  intros Hc. eexists. split; [|exact Hc]. unfold Extends. simpl. lia.
Qed.

Lemma RepeatMatcher_sound fuel m min max greedy :
  Sound m → Sound (RepeatMatcher fuel m min max greedy).
Proof.
  intros Hm. revert min max.
  induction fuel as [|fuel IH]; intros min max x c z; [done|].
  assert (∀ z',
    m x (fun y =>
           if (min =? 0) && (endIndex y =? endIndex x) then None
           else RepeatMatcher fuel m (pred min) (pred <$> max) greedy y c) = Some z' →
    ∃ y, Extends x y ∧ c y = Some z') as Hd.
  { intros z' Hz. apply Hm in Hz as (y & Hxy & Hy).
    destruct ((min =? 0) && (endIndex y =? endIndex x)); [done|].
    apply IH in Hy as (y' & Hyy' & Hy'). exists y'. eauto using Extends_trans. }
  assert (∀ z', c x = Some z' → ∃ y, Extends x y ∧ c y = Some z') as Hx
    by eauto using Extends_refl.
  simpl. destruct max as [[|n]|]; [by apply Hx|..];
    (destruct (negb (min =? 0)); [by apply Hd|]);
    (destruct (negb greedy);
     [destruct (c x) eqn:Hcx; [intros [= <-]; by apply Hx|by apply Hd]|]);
    match goal with |- context [m x ?d] => destruct (m x d) eqn:Hmx end;
    solve [intros [= <-]; by apply Hd | by apply Hx].
Qed.

Lemma compile_sound r : Sound (compile r).
Proof.
  induction r as [|ch| |neg atoms|a IHa b IHb|a IHa b IHb|a IHa min max greedy|a IHa| |];
    cbn [compile].
  - intros x c z Hc. eauto using Extends_refl.
  - apply CharacterSetMatcher_sound.
  - apply CharacterSetMatcher_sound.
  - apply CharacterSetMatcher_sound.
  - intros x c z Hz. apply IHa in Hz as (y & Hxy & Hz).
    apply IHb in Hz as (y' & Hyy' & Hz). eauto using Extends_trans.
  - intros x c z. destruct (compile a x c) eqn:Ha.
    + intros [= <-]. by apply IHa.
    + apply IHb.
  - intros x c z Hz. by apply RepeatMatcher_sound in Hz.
  - done.
  - intros x c z. destruct (endIndex x =? 0); [|done]. eauto using Extends_refl.
  - intros x c z. destruct (rest x); [|done]. eauto using Extends_refl.
Qed.

(** A match at index [i] ends between [i] and the end of the input. *)
Lemma matchAt_bounds re i s e :
  matchAt re i s = Some e → i ≤ e ≤ i + String.length s.
Proof.
  unfold matchAt. destruct (compile _ _ _) as [z|] eqn:Hz; [|done].
  intros [= <-]. apply compile_sound in Hz as (y & [H1 H2] & [= <-]).
  simpl in *. lia.
Qed.

End MatcherFacts.

Section ReplaceFacts.
Import JsRegExp MatcherProperties FragmentReference.

Lemma removeFrom_nil re i skip : removeFrom re i "" skip = "".
Proof. reflexivity. Qed.

Lemma removeFrom_skip re i s k :
  removeFrom re i s k = removeFrom re (i + k) (strDrop k s) 0.
Proof.
  revert i s. induction k as [|k IH]; intros i s.
  - by rewrite Nat.add_0_r.
  - destruct s as [|c s']; [reflexivity|].
    simpl. rewrite IH. f_equal. lia.
Qed.

(** What [removeFrom] does up to the first match that [execFrom] finds. *)
Lemma removeFrom_scan re s i :
  match execFrom re i s with
  | None => removeFrom re i s 0 = s
  | Some (j, e) =>
      i ≤ j ∧ j ≤ e ∧ e ≤ i + String.length s ∧
      removeFrom re i s 0 =
        strTake (j - i) s +:+
        (if j <? e then removeFrom re e (strDrop (e - i) s) 0
         else strTake 1 (strDrop (j - i) s)
              +:+ removeFrom re (j + 1) (strDrop (j + 1 - i) s) 0)
  end.
Proof.
  revert i. induction s as [|c s' IH]; intros i.
  - simpl. destruct (matchAt re i "") as [e|] eqn:He; [|reflexivity].
    apply matchAt_bounds in He. simpl in He.
    repeat split; try lia.
    replace (i <? e) with false by (symmetry; apply Nat.ltb_ge; lia).
    by rewrite !strDrop_nil, strTake_nil.
  - cbn [execFrom removeFrom]. destruct (matchAt re i (String c s')) as [e|] eqn:He.
    + pose proof (matchAt_bounds _ _ _ _ He) as Hb.
      repeat split; try lia.
      rewrite Nat.sub_diag. cbn [strTake strDrop].
      destruct (i <? e) eqn:Hlt.
      * apply Nat.ltb_lt in Hlt. remember (e - i - 1) as d eqn:Hd.
        rewrite removeFrom_skip.
        replace (e - i) with (S d) by lia. cbn [strDrop].
        change ("" +:+ ?x) with x. f_equal. lia.
      * change ("" +:+ ?x) with x. replace (i + 1 - i) with 1 by lia.
        cbn [strDrop]. rewrite append_cons. change ("" +:+ ?x) with x.
        by rewrite Nat.add_1_r.
    + specialize (IH (S i)). destruct (execFrom re (S i) s') as [[j e]|].
      * destruct IH as (H1 & H2 & H3 & ->). simpl String.length.
        repeat split; try lia.
        replace (j - i) with (S (j - S i)) by lia.
        replace (e - i) with (S (e - S i)) by lia.
        replace (j + 1 - i) with (S (j + 1 - S i)) by lia.
        cbn [strTake strDrop]. by rewrite append_cons.
      * by rewrite IH.
Qed.

Lemma substring_split P L j S :
  P ≤ L → L ≤ j →
  substring P L S +:+ strTake (j - L) (strDrop L S) = substring P j S.
Proof.
  intros H1 H2. unfold substring.
  replace (strDrop L S) with (strDrop (L - P) (strDrop P S))
    by (rewrite strDrop_strDrop; f_equal; lia).
  rewrite strTake_add. f_equal. lia.
Qed.

Lemma substring_rest P L S :
  P ≤ L → substring P L S +:+ strDrop L S = strDrop P S.
Proof.
  intros H1. unfold substring.
  replace (strDrop L S) with (strDrop (L - P) (strDrop P S))
    by (rewrite strDrop_strDrop; f_equal; lia).
  apply strTake_strDrop.
Qed.

Lemma accumulate_past_end re S P L acc :
  P ≤ L → String.length S < L →
  acc +:+ strDrop P S
  = acc +:+ substring P L S +:+ removeFrom re L (strDrop L S) 0.
Proof.
  intros H1 H2. rewrite (strDrop_all L S) by lia. rewrite removeFrom_nil, append_nil_r.
  unfold substring. rewrite strTake_all; [done|]. rewrite length_strDrop. lia.
Qed.

(** The two loops of [replace], started at [lastIndex = L] with the source
    consumed up to [P], produce what [removeFrom] produces from [L]. *)
Lemma accumulate_collectResults re S fuel L P acc :
  P ≤ L → String.length S + 2 ≤ fuel + L →
  accumulate S (collectResults fuel re S L) acc P
  = acc +:+ substring P L S +:+ removeFrom re L (strDrop L S) 0.
Proof.
  revert L P acc. induction fuel as [|fuel IH]; intros L P acc HPL Hfuel.
  - simpl. apply accumulate_past_end; lia.
  - cbn [collectResults]. unfold exec.
    destruct (String.length S <? L) eqn:Hlen.
    { apply Nat.ltb_lt in Hlen. simpl. by apply accumulate_past_end. }
    apply Nat.ltb_ge in Hlen.
    pose proof (removeFrom_scan re (strDrop L S) L) as Hscan.
    destruct (execFrom re L (strDrop L S)) as [[j e]|].
    + destruct Hscan as (H1 & H2 & H3 & ->).
      rewrite length_strDrop in H3.
      cbn [accumulate]. replace (P <=? j) with true by (symmetry; apply Nat.leb_le; lia).
      rewrite IH; [|destruct (e =? j) eqn:E; [apply Nat.eqb_eq in E|apply Nat.eqb_neq in E]; lia..].
      rewrite !strDrop_strDrop, append_nil_r, !append_assoc. f_equal.
      rewrite <- !append_assoc, (substring_split P L j) by lia.
      rewrite append_assoc. f_equal.
      destruct (e =? j) eqn:E.
      * apply Nat.eqb_eq in E. subst e.
        replace (j <? j) with false by (symmetry; apply Nat.ltb_ge; lia).
        unfold substring. replace (j + 1 - j) with 1 by lia.
        replace (L + (j - L)) with j by lia.
        replace (L + (j + 1 - L)) with (j + 1) by lia. done.
      * apply Nat.eqb_neq in E.
        replace (j <? e) with true by (symmetry; apply Nat.ltb_lt; lia).
        unfold substring. rewrite Nat.sub_diag. cbn [strTake].
        change ("" +:+ ?x) with x.
        replace (L + (e - L)) with e by lia. done.
    + cbn [accumulate]. rewrite Hscan. by rewrite substring_rest.
Qed.

(** [s.replace(re, '')] removes every occurrence of the pattern. *)
Lemma replace_removeOccurrences re s :
  JsRegExp.replace s re = removeOccurrences re s.
Proof.
  unfold JsRegExp.replace, removeOccurrences.
  rewrite accumulate_collectResults by lia. reflexivity.
Qed.

End ReplaceFacts.

Section FuelFacts.
Import JsRegExp MatcherProperties.

Lemma CharacterSetMatcher_local p : Local (CharacterSetMatcher p).
Proof.
  intros [i s] c1 c2 Hc. unfold CharacterSetMatcher. simpl.
  destruct s as [|ch s']; [done|]. destruct (p ch); [|done].
  apply Hc. unfold Extends. simpl. lia.
Qed.

Lemma RepeatMatcher_local fuel m min max greedy :
  Local m → Local (RepeatMatcher fuel m min max greedy).
Proof.
  intros Hm. revert min max.
  induction fuel as [|fuel IH]; intros min max x c1 c2 Hc; [done|].
  assert (c1 x = c2 x) as Hx by (apply Hc, Extends_refl).
  assert (m x (fun y =>
             if (min =? 0) && (endIndex y =? endIndex x) then None
             else RepeatMatcher fuel m (pred min) (pred <$> max) greedy y c1)
          = m x (fun y =>
             if (min =? 0) && (endIndex y =? endIndex x) then None
             else RepeatMatcher fuel m (pred min) (pred <$> max) greedy y c2)) as Hd.
  { apply Hm. intros y Hxy. destruct ((min =? 0) && (endIndex y =? endIndex x)); [done|].
    apply IH. intros y' Hyy'. apply Hc. eauto using Extends_trans. }
  simpl. rewrite Hd, Hx. reflexivity.
Qed.

Lemma compile_local r : Local (compile r).
Proof.
  induction r as [|ch| |neg atoms|a IHa b IHb|a IHa b IHb|a IHa min max greedy|a IHa| |];
    cbn [compile].
  - intros x c1 c2 Hc. apply Hc, Extends_refl.
  - apply CharacterSetMatcher_local.
  - apply CharacterSetMatcher_local.
  - apply CharacterSetMatcher_local.
  - intros x c1 c2 Hc. apply IHa. intros y Hxy. apply IHb.
    intros y' Hyy'. apply Hc. eauto using Extends_trans.
  - intros x c1 c2 Hc. by rewrite (IHa x c1 c2), (IHb x c1 c2).
  - intros x c1 c2 Hc. by apply RepeatMatcher_local.
  - done.
  - intros x c1 c2 Hc. rewrite (Hc x (Extends_refl x)). reflexivity.
  - intros x c1 c2 Hc. rewrite (Hc x (Extends_refl x)). reflexivity.
Qed.

(** The fuel that [compile] gives to [RepeatMatcher] is enough: with any
    fuel above [min] plus the length of the input left, the result is the
    same. *)
Lemma RepeatMatcher_fuel m greedy :
  Local m →
  ∀ fuel1 fuel2 min max x c,
    min + String.length (rest x) < fuel1 →
    min + String.length (rest x) < fuel2 →
    RepeatMatcher fuel1 m min max greedy x c = RepeatMatcher fuel2 m min max greedy x c.
Proof.
  intros Hm. induction fuel1 as [|fuel1 IH]; intros fuel2 min max x c H1 H2; [lia|].
  destruct fuel2 as [|fuel2]; [lia|].
  assert (m x (fun y =>
             if (min =? 0) && (endIndex y =? endIndex x) then None
             else RepeatMatcher fuel1 m (pred min) (pred <$> max) greedy y c)
          = m x (fun y =>
             if (min =? 0) && (endIndex y =? endIndex x) then None
             else RepeatMatcher fuel2 m (pred min) (pred <$> max) greedy y c)) as Hd.
  { apply Hm. intros y [Hle Hlen].
    destruct (min =? 0) eqn:Hmin; simpl.
    - destruct (endIndex y =? endIndex x) eqn:He; [done|].
      apply Nat.eqb_eq in Hmin. apply Nat.eqb_neq in He. apply IH; lia.
    - apply Nat.eqb_neq in Hmin. apply IH; lia. }
  simpl. rewrite Hd. reflexivity.
Qed.

End FuelFacts.

Section VideoExtensions.

Lemma strDrop_append s t : strDrop (String.length s) (s +:+ t) = t.
Proof. induction s as [|c s IH]; [reflexivity|]. by rewrite append_cons. Qed.

Lemma endsWith_suffix s suffix :
  endsWith s suffix = true ↔ ∃ stem, s = stem +:+ suffix.
Proof.
  unfold endsWith. rewrite andb_true_iff, Nat.leb_le, String.eqb_eq. split.
  - intros [Hle Hd]. exists (strTake (String.length s - String.length suffix) s).
    rewrite <- Hd at 2. by rewrite strTake_strDrop.
  - intros [stem ->]. rewrite length_append. split; [lia|].
    replace (String.length stem + String.length suffix - String.length suffix)
      with (String.length stem) by lia.
    apply strDrop_append.
Qed.

(** X9: a video file is a file whose name, in lower case, ends with one of
    the five extensions. *)
Lemma isVideo_suffix f :
  isVideo f = true ↔
  ∃ ext stem, ext ∈ videoExtensions ∧ toLowerCase f = stem +:+ ext.
Proof.
  unfold isVideo. rewrite existsb_exists. split.
  - intros (ext & Hin & He). apply endsWith_suffix in He as [stem He].
    exists ext, stem. by rewrite list_elem_of_In.
  - intros (ext & stem & Hin & He). exists ext. rewrite <- list_elem_of_In.
    split; [done|]. apply endsWith_suffix. eauto.
Qed.

End VideoExtensions.

(** ** The component on the regular expressions of the fragment *)

Section Fragment.
Import JsRegExp FragmentReference Samples.

Lemma forPatterns_foldl (rules : list Regex) key :
  forPatterns (H := fragmentEngine) rules key
  = foldl (fun key re => removeOccurrences re key) key rules.
Proof.
  revert key. induction rules as [|re rules IH]; intros key; [reflexivity|].
  simpl. by rewrite IH, replace_removeOccurrences.
Qed.

(** C1: [buildMatchKey] is the reference key: the file name in lower case,
    every rule applied in declaration order, each one removing every
    occurrence of its pattern, and the result trimmed. *)
Theorem buildMatchKey_reference filename (rules : list Regex) :
  buildMatchKey (H := fragmentEngine) filename rules = referenceKey filename rules.
Proof. unfold buildMatchKey, referenceKey. by rewrite forPatterns_foldl. Qed.

Lemma compileRules_default :
  compileRules (H := fragmentEngine) DEFAULT_PATTERNS = inr defaultRegexes.
Proof. vm_compute. reflexivity. Qed.

(** C7: the five default patterns compile; with them, ["Show.S01E01.1080p.mkv"] and
    ["show_s01e01_eng.mp4"] both have the key ["shows01e01"], and the match
    pass on these two listings returns one row and one work item, whose
    output path is the output folder, a slash and the reference file name. *)
Theorem default_rules_join host params refDir foreignDir outputDir :
  compileRules (H := fragmentEngine) DEFAULT_PATTERNS = inr defaultRegexes ∧
  buildMatchKey (H := fragmentEngine) "Show.S01E01.1080p.mkv" defaultRegexes = "shows01e01" ∧
  buildMatchKey (H := fragmentEngine) "show_s01e01_eng.mp4" defaultRegexes = "shows01e01" ∧
  matchPass (H := fragmentEngine) host params refDir foreignDir outputDir
    DEFAULT_PATTERNS ["Show.S01E01.1080p.mkv"] ["show_s01e01_eng.mp4"]
  = inr ([ {| ref := "Show.S01E01.1080p.mkv";
              foreign := Some "show_s01e01_eng.mp4";
              key := "shows01e01" |} ],
         [ {| id := "batch-" +:+ ofN (Date_now host 0) +:+ "-" +:+ Math_random host 0;
              refVideo := refDir +:+ "/" +:+ "Show.S01E01.1080p.mkv";
              foreignVideo := foreignDir +:+ "/" +:+ "show_s01e01_eng.mp4";
              outputVideo := outputDir +:+ "/" +:+ "Show.S01E01.1080p.mkv";
              firstSegmentAdjust := orZero (p_firstSegmentAdjust params);
              lastSegmentAdjust := orZero (p_lastSegmentAdjust params);
              skipSubtitles := orFalse (p_noSubtitles params);
              status := pending |} ]).
Proof.
  split; [exact compileRules_default|].
  split; [by vm_compute|]. split; [by vm_compute|].
  rewrite (matchPass_unfold _ _ _ _ _ _ _ _ _ compileRules_default).
  reflexivity.
Qed.

(** C2, as stated, fails: two runs on the same inputs at different times
    give work items with different identifiers. *)
Lemma identifiers_differ_between_runs :
  matchPass (H := fragmentEngine) (hostAt 1000 [] []) noParameters
    "/ref" "/foreign" "/out" DEFAULT_PATTERNS ["a.mkv"] ["a.mkv"]
  ≠ matchPass (H := fragmentEngine) (hostAt 2000 [] []) noParameters
      "/ref" "/foreign" "/out" DEFAULT_PATTERNS ["a.mkv"] ["a.mkv"].
Proof. intros E. vm_compute in E. discriminate E. Qed.


(** C6, as stated, fails: the report of a compile failure is the same
    whether the failing pattern is the first rule or the second. *)
Lemma report_does_not_identify_index :
  let host := hostAt 0 ["a.mkv"] ["a.mkv"] in
  let props := {| parameters := noParameters; hasOnJobsChange := true |} in
  failingIndex (H := fragmentEngine) ["("; "a"] 0 = Some 0 ∧
  failingIndex (H := fragmentEngine) ["a"; "("] 0 = Some 1 ∧
  (handleLoadJobs (H := fragmentEngine) host props (stateWith ["("; "a"])).2
  = [ConsoleError (SyntaxError "("); Alert "Failed to load directory contents"] ∧
  (handleLoadJobs (H := fragmentEngine) host props (stateWith ["a"; "("])).2
  = [ConsoleError (SyntaxError "("); Alert "Failed to load directory contents"].
Proof. repeat split; by vm_compute. Qed.

(** C3 at the default rules: of ["a.mkv"] and ["A.mp4"], which share the key
    ["a"], the lookup keeps the later one. *)
Lemma foreign_collision_last_write_wins_witness :
  compileRules (H := fragmentEngine) DEFAULT_PATTERNS = inr defaultRegexes ∧
  filter (fun f => isVideo f = true) ["a.mkv"; "notes.txt"; "A.mp4"; "b.mkv"]
    = ["a.mkv"] ++ "A.mp4" :: ["b.mkv"] ∧
  Forall (fun g => buildMatchKey (H := fragmentEngine) g defaultRegexes
                   ≠ buildMatchKey (H := fragmentEngine) "A.mp4" defaultRegexes)
    ["b.mkv"] ∧
  forForeignVideos (H := fragmentEngine) defaultRegexes
    (filter (fun f => isVideo f = true) ["a.mkv"; "notes.txt"; "A.mp4"; "b.mkv"]) ∅
    !! buildMatchKey (H := fragmentEngine) "A.mp4" defaultRegexes = Some "A.mp4" ∧
  ∃ rows items,
    matchPass (H := fragmentEngine) (hostAt 0 [] []) noParameters "/ref" "/foreign" "/out"
      DEFAULT_PATTERNS ["A.avi"] ["a.mkv"; "notes.txt"; "A.mp4"; "b.mkv"]
    = inr (rows, items) ∧
    ∀ r, r ∈ filter (fun f => isVideo f = true) ["A.avi"] →
      buildMatchKey (H := fragmentEngine) r defaultRegexes
      = buildMatchKey (H := fragmentEngine) "A.mp4" defaultRegexes →
      {| ref := r; foreign := Some "A.mp4";
         key := buildMatchKey (H := fragmentEngine) "A.mp4" defaultRegexes |} ∈ rows ∧
      ∃ j, items !! j
           = Some (newItem (hostAt 0 [] []) noParameters "/ref" "/foreign" "/out" j r "A.mp4").
Proof.
  assert (compileRules (H := fragmentEngine) DEFAULT_PATTERNS = inr defaultRegexes) as Hc
    by (vm_compute; reflexivity).
  assert (filter (fun f => isVideo f = true) ["a.mkv"; "notes.txt"; "A.mp4"; "b.mkv"]
          = ["a.mkv"] ++ "A.mp4" :: ["b.mkv"]) as Hs
    by (vm_compute; reflexivity).
  assert (Forall (fun g => buildMatchKey (H := fragmentEngine) g defaultRegexes
                   ≠ buildMatchKey (H := fragmentEngine) "A.mp4" defaultRegexes)
            ["b.mkv"]) as Hl
    by (repeat constructor; vm_compute; discriminate).
  split; [exact Hc|]. split; [exact Hs|]. split; [exact Hl|].
  exact (foreign_collision_last_write_wins (H := fragmentEngine)
           (hostAt 0 [] []) noParameters "/ref" "/foreign" "/out"
           DEFAULT_PATTERNS defaultRegexes ["A.avi"]
           ["a.mkv"; "notes.txt"; "A.mp4"; "b.mkv"] ["a.mkv"] "A.mp4" ["b.mkv"]
           Hc Hs Hl).
Defined.

(** C4 at the default rules, on a listing with a file that is not a video
    and a video without a match. *)
Lemma matchPass_rows_and_items_witness :
  compileRules (H := fragmentEngine) DEFAULT_PATTERNS = inr defaultRegexes ∧
  ∃ rows items,
    matchPass (H := fragmentEngine) (hostAt 0 [] []) noParameters "/ref" "/foreign" "/out"
      DEFAULT_PATTERNS ["Show.S01E01.1080p.mkv"; "notes.txt"; "Unmatched.mkv"]
      ["show_s01e01_eng.mp4"] = inr (rows, items) ∧
    length rows
    = length (filter (fun f => isVideo f = true)
                ["Show.S01E01.1080p.mkv"; "notes.txt"; "Unmatched.mkv"]) ∧
    ref <$> rows
    = filter (fun f => isVideo f = true)
        ["Show.S01E01.1080p.mkv"; "notes.txt"; "Unmatched.mkv"] ∧
    items = imap (fun j row =>
                    newItem (hostAt 0 [] []) noParameters "/ref" "/foreign" "/out"
                      j (ref row) (default "" (foreign row)))
              (matchedRows rows).
Proof.
  assert (compileRules (H := fragmentEngine) DEFAULT_PATTERNS = inr defaultRegexes) as Hc
    by (vm_compute; reflexivity).
  split; [exact Hc|].
  exact (matchPass_rows_and_items (H := fragmentEngine)
           (hostAt 0 [] []) noParameters "/ref" "/foreign" "/out"
           DEFAULT_PATTERNS defaultRegexes
           ["Show.S01E01.1080p.mkv"; "notes.txt"; "Unmatched.mkv"]
           ["show_s01e01_eng.mp4"] Hc).
Defined.

(** C10 at the default rules: two reference videos with the key
    ["shows01e01"] and one foreign video with this key. *)
Lemma matchPass_many_to_one_witness :
  compileRules (H := fragmentEngine) DEFAULT_PATTERNS = inr defaultRegexes ∧
  0 < 1 ∧
  filter (fun f => isVideo f = true) ["Show.S01E01.mkv"; "notes.txt"; "show-s01e01.avi"]
    !! 0 = Some "Show.S01E01.mkv" ∧
  filter (fun f => isVideo f = true) ["Show.S01E01.mkv"; "notes.txt"; "show-s01e01.avi"]
    !! 1 = Some "show-s01e01.avi" ∧
  buildMatchKey (H := fragmentEngine) "Show.S01E01.mkv" defaultRegexes
  = buildMatchKey (H := fragmentEngine) "show-s01e01.avi" defaultRegexes ∧
  ∃ rows items,
    matchPass (H := fragmentEngine) (hostAt 0 [] []) noParameters "/ref" "/foreign" "/out"
      DEFAULT_PATTERNS ["Show.S01E01.mkv"; "notes.txt"; "show-s01e01.avi"]
      ["show_s01e01_eng.mp4"] = inr (rows, items) ∧
    rows !! 0 = Some {| ref := "Show.S01E01.mkv";
                        foreign := Some "show_s01e01_eng.mp4"; key := "shows01e01" |} ∧
    rows !! 1 = Some {| ref := "show-s01e01.avi";
                        foreign := Some "show_s01e01_eng.mp4"; key := "shows01e01" |} ∧
    ∃ j1 j2, j1 < j2 ∧
      items !! j1
      = Some (newItem (hostAt 0 [] []) noParameters "/ref" "/foreign" "/out"
                j1 "Show.S01E01.mkv" "show_s01e01_eng.mp4") ∧
      items !! j2
      = Some (newItem (hostAt 0 [] []) noParameters "/ref" "/foreign" "/out"
                j2 "show-s01e01.avi" "show_s01e01_eng.mp4").
Proof.
  assert (compileRules (H := fragmentEngine) DEFAULT_PATTERNS = inr defaultRegexes) as Hc
    by (vm_compute; reflexivity).
  assert (0 < 1) as Hlt by lia.
  assert (filter (fun f => isVideo f = true)
            ["Show.S01E01.mkv"; "notes.txt"; "show-s01e01.avi"] !! 0
          = Some "Show.S01E01.mkv") as H1 by (vm_compute; reflexivity).
  assert (filter (fun f => isVideo f = true)
            ["Show.S01E01.mkv"; "notes.txt"; "show-s01e01.avi"] !! 1
          = Some "show-s01e01.avi") as H2 by (vm_compute; reflexivity).
  assert (buildMatchKey (H := fragmentEngine) "Show.S01E01.mkv" defaultRegexes
          = buildMatchKey (H := fragmentEngine) "show-s01e01.avi" defaultRegexes) as Hk
    by (vm_compute; reflexivity).
  do 5 (split; [assumption|]).
  destruct (matchPass_many_to_one (H := fragmentEngine)
              (hostAt 0 [] []) noParameters "/ref" "/foreign" "/out"
              DEFAULT_PATTERNS defaultRegexes
              ["Show.S01E01.mkv"; "notes.txt"; "show-s01e01.avi"]
              ["show_s01e01_eng.mp4"] 0 1 "Show.S01E01.mkv" "show-s01e01.avi"
              Hc Hlt H1 H2 Hk) as (rows & items & Hpass & Hr1 & Hr2 & Hitems).
  exists rows, items. split; [exact Hpass|].
  split; [exact Hr1|]. split; [exact Hr2|].
  apply Hitems. vm_compute. reflexivity.
Defined.

(** C8 at ["notes.txt"]. *)
Lemma non_video_files_excluded_witness :
  isVideo "notes.txt" = false ∧
  matchPass (H := fragmentEngine) (hostAt 0 [] []) noParameters "/ref" "/foreign" "/out"
    DEFAULT_PATTERNS (["a.mkv"] ++ "notes.txt" :: ["b.mkv"]) ["A.mp4"; "notes.txt"]
  = matchPass (H := fragmentEngine) (hostAt 0 [] []) noParameters "/ref" "/foreign" "/out"
      DEFAULT_PATTERNS (["a.mkv"] ++ ["b.mkv"]) ["A.mp4"; "notes.txt"] ∧
  matchPass (H := fragmentEngine) (hostAt 0 [] []) noParameters "/ref" "/foreign" "/out"
    DEFAULT_PATTERNS ["notes.txt"; "a.mkv"] (["a.mkv"] ++ "notes.txt" :: ["b.mkv"])
  = matchPass (H := fragmentEngine) (hostAt 0 [] []) noParameters "/ref" "/foreign" "/out"
      DEFAULT_PATTERNS ["notes.txt"; "a.mkv"] (["a.mkv"] ++ ["b.mkv"]).
Proof.
  assert (isVideo "notes.txt" = false) as Hf by reflexivity.
  split; [exact Hf|]. split.
  - exact (proj1 (non_video_files_excluded (H := fragmentEngine)
             (hostAt 0 [] []) noParameters "/ref" "/foreign" "/out"
             DEFAULT_PATTERNS ["notes.txt"; "a.mkv"] ["A.mp4"; "notes.txt"]
             ["a.mkv"] ["b.mkv"] "notes.txt" Hf)).
  - exact (proj1 (proj2 (non_video_files_excluded (H := fragmentEngine)
             (hostAt 0 [] []) noParameters "/ref" "/foreign" "/out"
             DEFAULT_PATTERNS ["notes.txt"; "a.mkv"] ["A.mp4"; "notes.txt"]
             ["a.mkv"] ["b.mkv"] "notes.txt" Hf))).
Defined.

(** C6 at a rule list whose last pattern has an unclosed group. *)
Lemma invalid_pattern_blocks_pass_witness :
  let host := hostAt 0 ["a.mkv"] ["a.mkv"] in
  let props := {| parameters := noParameters; hasOnJobsChange := true |} in
  let st := stateWith ["\.[^.]+$"; ""; "(1080p"] in
  "(1080p" ∈ patterns st ∧ Boolean "(1080p" = true ∧
  RegExp_new (RegExpEngine := fragmentEngine) "(1080p" = None ∧
  (handleLoadJobs (H := fragmentEngine) host props st).1 = st ∧
  (handleLoadJobs (H := fragmentEngine) host props st).2
  = [ConsoleError (SyntaxError "(1080p"); Alert "Failed to load directory contents"].
Proof.
  intros host props st.
  assert ("(1080p" ∈ patterns st) as Hin
    by (unfold st, stateWith; simpl; repeat constructor).
  assert (Boolean "(1080p" = true) as Hb by reflexivity.
  assert (RegExp_new (RegExpEngine := fragmentEngine) "(1080p" = None) as Hn
    by (vm_compute; reflexivity).
  do 3 (split; [assumption|]).
  destruct (invalid_pattern_blocks_pass (H := fragmentEngine) host props st "(1080p"
              Hin Hb Hn) as (q & _ & _ & _ & _ & Hst & _ & _).
  split; [exact Hst|]. vm_compute. reflexivity.
Defined.

End Fragment.

Section CaseFacts.
Import JsRegExp MatcherProperties.

Lemma allAscii_complete c : In c allAscii.
Proof.
  unfold allAscii. rewrite <- (ascii_nat_embedding c).
  apply in_map, in_seq. pose proof (nat_ascii_bounded c). lia.
Qed.

Lemma forall_ascii (P : ascii → bool) :
  forallb P allAscii = true → ∀ c, P c = true.
Proof. intros HP c. eapply forallb_forall in HP; [exact HP|apply allAscii_complete]. Qed.

Lemma forall_ascii2 (Q : ascii → ascii → bool) :
  forallb (fun a => forallb (Q a) allAscii) allAscii = true → ∀ a b, Q a b = true.
Proof. intros HQ a b. apply (forall_ascii (Q a)). by apply (forall_ascii _ HQ). Qed.

Lemma caseBlind_spec p a b :
  caseBlind p = true → canonicalize a = canonicalize b → p a = p b.
Proof.
  intros Hp Hab.
  pose proof (forall_ascii2
    (fun a b => implb (Ascii.eqb (canonicalize a) (canonicalize b)) (Bool.eqb (p a) (p b)))
    Hp a b) as H. simpl in H.
  rewrite Hab, Ascii.eqb_refl in H. simpl in H. by apply Bool.eqb_prop.
Qed.

Lemma upper_or_lower c : c = toUpperChar c ∨ c = toLowerChar c.
Proof.
  assert (Ascii.eqb c (toUpperChar c) || Ascii.eqb c (toLowerChar c) = true) as H
    by (revert c; apply forall_ascii; by vm_compute).
  apply orb_true_iff in H as [H|H]; apply Ascii.eqb_eq in H; eauto.
Qed.

Lemma canonicalize_lower a b :
  canonicalize a = canonicalize b → toLowerChar a = toLowerChar b.
Proof.
  intros Hab.
  assert (implb (Ascii.eqb (canonicalize a) (canonicalize b))
                (Ascii.eqb (toLowerChar a) (toLowerChar b)) = true) as H
    by (revert a b Hab; intros a b _; revert a b; apply forall_ascii2; by vm_compute).
  rewrite Hab, Ascii.eqb_refl in H. simpl in H. by apply Ascii.eqb_eq.
Qed.

Lemma inRange_case lo hi c :
  inRange lo hi c || inRange lo hi (toUpperChar c) || inRange lo hi (toLowerChar c)
  = inRange lo hi (toUpperChar c) || inRange lo hi (toLowerChar c).
Proof.
  destruct (upper_or_lower c) as [E|E]; rewrite <- E;
    destruct (inRange lo hi c), (inRange lo hi (toUpperChar c)),
      (inRange lo hi (toLowerChar c)); reflexivity.
Qed.

Lemma atomMatches_case atom a b :
  canonicalize a = canonicalize b → atomMatches atom a = atomMatches atom b.
Proof.
  intros Hab. destruct atom as [ch|lo hi|neg|neg|neg]; simpl.
  - by rewrite Hab.
  - rewrite !inRange_case. unfold canonicalize in Hab.
    by rewrite Hab, (canonicalize_lower a b Hab).
  - f_equal. by apply (caseBlind_spec isDigit); [vm_compute|].
  - f_equal. by apply (caseBlind_spec isWhiteSpace); [vm_compute|].
  - f_equal. by apply (caseBlind_spec isWordChar); [vm_compute|].
Qed.

Lemma classMatches_case neg atoms a b :
  canonicalize a = canonicalize b → classMatches neg atoms a = classMatches neg atoms b.
Proof.
  intros Hab. unfold classMatches. f_equal.
  induction atoms as [|atom atoms IH]; [reflexivity|].
  simpl. by rewrite IH, (atomMatches_case atom a b).
Qed.

Lemma canonString_length s t :
  canonString s = canonString t → String.length s = String.length t.
Proof.
  revert t. induction s as [|c s IH]; intros [|d t] E; simpl in *; try done.
  injection E as _ E. by rewrite (IH t).
Qed.

Lemma CharacterSetMatcher_case p :
  (∀ a b, canonicalize a = canonicalize b → p a = p b) →
  CaseBlind (CharacterSetMatcher p).
Proof.
  intros Hp [i1 s1] [i2 s2] c1 c2 [Hi Hs] Hc. simpl in *. subst i2.
  unfold CharacterSetMatcher. simpl.
  destruct s1 as [|a s1], s2 as [|b s2]; simpl in *; try done.
  injection Hs as Hab Hs. rewrite (Hp a b Hab).
  destruct (p b); [|done]. apply Hc. by split.
Qed.

Lemma RepeatMatcher_case fuel m min max greedy :
  CaseBlind m → CaseBlind (RepeatMatcher fuel m min max greedy).
Proof.
  intros Hm. revert min max.
  induction fuel as [|fuel IH]; intros min max x1 x2 c1 c2 Hx Hc; [done|].
  pose proof (Hc _ _ Hx) as Hcx.
  assert (SameResult
    (m x1 (fun y =>
       if (min =? 0) && (endIndex y =? endIndex x1) then None
       else RepeatMatcher fuel m (pred min) (pred <$> max) greedy y c1))
    (m x2 (fun y =>
       if (min =? 0) && (endIndex y =? endIndex x2) then None
       else RepeatMatcher fuel m (pred min) (pred <$> max) greedy y c2))) as Hd.
  { apply Hm; [done|]. intros y1 y2 Hy.
    destruct Hx as [Hx _]. destruct Hy as [Hy Hy']. rewrite Hx, Hy.
    destruct ((min =? 0) && (endIndex y2 =? endIndex x2)); [done|].
    apply IH; [by split|done]. }
  simpl.
  destruct max as [[|n]|]; [done|..];
    (destruct (negb (min =? 0)); [done|]);
    (destruct (negb greedy);
     [destruct (c1 x1), (c2 x2); done|]);
    match goal with
    | H : SameResult (m x1 ?d1) (m x2 ?d2) |- _ =>
        destruct (m x1 d1), (m x2 d2); done
    end.
Qed.

Lemma compile_case r : CaseBlind (compile r).
Proof.
  induction r as [|ch| |neg atoms|a IHa b IHb|a IHa b IHb|a IHa min max greedy|a IHa| |];
    cbn [compile].
  - intros x1 x2 c1 c2 Hx Hc. by apply Hc.
  - apply CharacterSetMatcher_case. by intros a b ->.
  - apply CharacterSetMatcher_case. intros a b Hab. f_equal.
    by apply (caseBlind_spec isLineTerminator); [vm_compute|].
  - apply CharacterSetMatcher_case. apply classMatches_case.
  - intros x1 x2 c1 c2 Hx Hc. apply IHa; [done|].
    intros y1 y2 Hy. by apply IHb.
  - intros x1 x2 c1 c2 Hx Hc.
    pose proof (IHa x1 x2 c1 c2 Hx Hc) as Ha.
    pose proof (IHb x1 x2 c1 c2 Hx Hc) as Hb.
    destruct (compile a x1 c1), (compile a x2 c2); done.
  - intros x1 x2 c1 c2 Hx Hc.
    rewrite (canonString_length _ _ (proj2 Hx)).
    by apply RepeatMatcher_case.
  - done.
  - intros x1 x2 c1 c2 Hx Hc. rewrite (proj1 Hx).
    destruct (endIndex x2 =? 0); [by apply Hc|done].
  - intros [i1 s1] [i2 s2] c1 c2 Hx Hc. pose proof Hx as [_ Hs]. simpl in *.
    destruct s1, s2; try done. by apply Hc.
Qed.

(** X10: the flag [i]: where a pattern matches in a text, and how far, does
    not depend on the case of the letters of the text. *)
Lemma matchAt_case_insensitive re i s t :
  canonString s = canonString t → matchAt re i s = matchAt re i t.
Proof.
  intros Hst. unfold matchAt.
  assert (SameResult (compile (source re) (mkMatch i s) Some)
                     (compile (source re) (mkMatch i t) Some)) as H.
  { apply compile_case; [by split|]. by intros y1 y2 Hy. }
  destruct (compile _ (mkMatch i s) _) as [y1|],
           (compile _ (mkMatch i t) _) as [y2|]; try done.
  simpl. f_equal. apply H.
Qed.

(** X10 at the pattern [eng] on the texts ["ENG"] and ["eng"]. *)
Lemma matchAt_case_insensitive_witness :
  canonString "ENG" = canonString "eng" ∧
  matchAt (mkRegex (NSeq (NChar "e") (NSeq (NChar "n") (NChar "g")))) 0 "ENG"
  = matchAt (mkRegex (NSeq (NChar "e") (NSeq (NChar "n") (NChar "g")))) 0 "eng".
Proof.
  assert (canonString "ENG" = canonString "eng") as Hs by reflexivity.
  split; [exact Hs|].
  exact (matchAt_case_insensitive
           (mkRegex (NSeq (NChar "e") (NSeq (NChar "n") (NChar "g")))) 0 "ENG" "eng" Hs).
Defined.

End CaseFacts.

(** ** Further properties of the handlers and of the match key *)

Section Further.
Context `{RegExpEngine}.
Import MatcherProperties.

(** X1: a match pass requested while one of the three folders is unset
    does nothing but show the alert that asks for them. *)
Theorem handleLoadJobs_needs_folders host props st :
  Boolean (refFolder st) = false ∨ Boolean (foreignFolder st) = false
  ∨ Boolean (outputFolder st) = false →
  handleLoadJobs host props st = (st, [Alert "Please select all three folders"]).
Proof.
  intros Hf. unfold handleLoadJobs.
  destruct (Boolean (refFolder st)), (Boolean (foreignFolder st)),
    (Boolean (outputFolder st)); simpl; try reflexivity.
  by destruct Hf as [|[|]].
Qed.

(** X2: when listing one of the two input folders fails, the handler leaves
    the state as it was, logs the error and shows the fixed alert. *)
Theorem handleLoadJobs_listing_fails host props st :
  Boolean (refFolder st) = true → Boolean (foreignFolder st) = true →
  Boolean (outputFolder st) = true →
  listDirectory host (refFolder st) = None
  ∨ listDirectory host (foreignFolder st) = None →
  (handleLoadJobs host props st).1 = st ∧
  ∃ path, (handleLoadJobs host props st).2
          = [ConsoleError (DirectoryError path);
             Alert "Failed to load directory contents"].
Proof.
  intros H1 H2 H3 Hl. unfold handleLoadJobs. rewrite H1, H2, H3. simpl.
  unfold listing.
  destruct (listDirectory host (refFolder st)) as [refFiles|]; simpl; [|by eauto].
  destruct (listDirectory host (foreignFolder st)) as [foreignFiles|]; simpl; [|by eauto].
  by destruct Hl.
Qed.

(** When the folders are set, both listings succeed and the match pass
    returns, the handler stores the rows as the preview and the items as
    the jobs, keeps the rest of the state, and notifies [onJobsChange]. *)
Lemma handleLoadJobs_success host props st refFiles foreignFiles rows items :
  Boolean (refFolder st) = true → Boolean (foreignFolder st) = true →
  Boolean (outputFolder st) = true →
  listDirectory host (refFolder st) = Some refFiles →
  listDirectory host (foreignFolder st) = Some foreignFiles →
  matchPass host (parameters props) (refFolder st) (foreignFolder st) (outputFolder st)
    (patterns st) refFiles foreignFiles = inr (rows, items) →
  handleLoadJobs host props st
  = ({| refFolder := refFolder st; foreignFolder := foreignFolder st;
        outputFolder := outputFolder st; jobs := items;
        patterns := patterns st; preview := rows |},
     onJobsChange props items).
Proof.
  intros H1 H2 H3 Hr Hf Hpass. unfold handleLoadJobs. rewrite H1, H2, H3. simpl.
  unfold listing. rewrite Hr, Hf. simpl. by rewrite Hpass.
Qed.

Lemma itemsOfRows_elem (mk : nat → string → string → BatchJobItem) rows it :
  ∀ k, it ∈ itemsOfRows mk k rows →
  ∃ j row m, row ∈ rows ∧ foreign row = Some m ∧ it = mk j (ref row) m.
Proof.
  induction rows as [|row rows IH]; intros k Hin; [by apply elem_of_nil in Hin|].
  simpl in Hin. destruct (foreign row) as [m|] eqn:Hf.
  - apply elem_of_cons in Hin as [->|Hin].
    + exists k, row, m. split; [by left|done].
    + destruct (IH _ Hin) as (j & row' & m' & Hrow & Hm & ->).
      exists j, row', m'. split; [by right|done].
  - destruct (IH _ Hin) as (j & row' & m' & Hrow & Hm & ->).
    exists j, row', m'. split; [by right|done].
Qed.

(** X4: every work item of a match pass pairs a filtered reference video
    with a filtered foreign video of the same key; its three paths are the
    folder, a slash and the file name, the output path being named after
    the reference file; it is pending and carries the parameters with
    their defaults. *)
Theorem matchPass_item_fields host params refDir foreignDir outputDir
    patterns regexes refFiles foreignFiles rows items :
  compileRules patterns = inr regexes →
  matchPass host params refDir foreignDir outputDir patterns refFiles foreignFiles
  = inr (rows, items) →
  ∀ it, it ∈ items →
    ∃ r m,
      r ∈ filter (fun f => isVideo f = true) refFiles ∧
      m ∈ filter (fun f => isVideo f = true) foreignFiles ∧
      buildMatchKey r regexes = buildMatchKey m regexes ∧
      refVideo it = refDir +:+ "/" +:+ r ∧
      foreignVideo it = foreignDir +:+ "/" +:+ m ∧
      outputVideo it = outputDir +:+ "/" +:+ r ∧
      firstSegmentAdjust it = orZero (p_firstSegmentAdjust params) ∧
      lastSegmentAdjust it = orZero (p_lastSegmentAdjust params) ∧
      skipSubtitles it = orFalse (p_noSubtitles params) ∧
      status it = pending.
Proof.
  intros Hc Hpass it Hin.
  rewrite (matchPass_unfold _ _ _ _ _ _ _ _ _ Hc) in Hpass. simpl in Hpass.
  injection Hpass as <- <-.
  apply itemsOfRows_elem in Hin as (j & row & m & Hrow & Hm & ->).
  apply list_elem_of_fmap in Hrow as (r & -> & Hr).
  simpl in Hm. rewrite forForeignVideos_truthy, forForeignVideos_lookup, lookup_empty in Hm.
  destruct (last _) as [g|] eqn:Hl; [|done]. injection Hm as ->.
  apply last_Some_elem_of, list_elem_of_filter in Hl as [Hk Hg].
  exists r, m. simpl. by repeat split.
Qed.

(** X11: the rule that [+ Add Regex] appends is empty, so a match pass
    after it does what it does before it; editing that rule puts the new
    text in its place. *)
Theorem handleAddRegex_keeps_the_pass host props st :
  handleLoadJobs host props (handleAddRegex st)
  = (handleAddRegex (handleLoadJobs host props st).1,
     (handleLoadJobs host props st).2) ∧
  ∀ value,
    patterns (handlePatternChange (length (patterns st)) value (handleAddRegex st))
    = patterns st ++ [value].
Proof.
  split.
  - unfold handleLoadJobs, handleAddRegex. simpl.
    destruct (negb (Boolean (refFolder st)) || negb (Boolean (foreignFolder st))
              || negb (Boolean (outputFolder st))); [done|].
    assert (∀ refFiles foreignFiles,
      matchPass host (parameters props) (refFolder st) (foreignFolder st)
        (outputFolder st) (patterns st ++ [""]) refFiles foreignFiles
      = matchPass host (parameters props) (refFolder st) (foreignFolder st)
          (outputFolder st) (patterns st) refFiles foreignFiles) as Hpass.
    { intros. unfold matchPass.
      rewrite <- (app_nil_r (patterns st)) at 2.
      by rewrite compileRules_skip_empty. }
    destruct (listing host (refFolder st)) as [e|refFiles]; simpl; [done|].
    destruct (listing host (foreignFolder st)) as [e|foreignFiles]; simpl; [done|].
    rewrite Hpass.
    by destruct (matchPass _ _ _ _ _ _ _ _) as [e|[rows items]].
  - intros value. unfold handlePatternChange, handleAddRegex. simpl.
    rewrite insert_app_r_alt by lia. by rewrite Nat.sub_diag.
Qed.

Lemma toLowerChar_idemp c : toLowerChar (toLowerChar c) = toLowerChar c.
Proof.
  apply Ascii.eqb_eq. revert c. apply forall_ascii. by vm_compute.
Qed.

Lemma toLowerCase_idemp s : toLowerCase (toLowerCase s) = toLowerCase s.
Proof.
  induction s as [|c s IH]; [reflexivity|].
  simpl. by rewrite toLowerChar_idemp, IH.
Qed.

(** The match key does not depend on the case of the letters of the file
    name. *)
Lemma buildMatchKey_toLowerCase filename regexes :
  buildMatchKey (toLowerCase filename) regexes = buildMatchKey filename regexes.
Proof. unfold buildMatchKey. by rewrite toLowerCase_idemp. Qed.

End Further.

Section FurtherFragment.
Import JsRegExp Samples.

(** With the default rules, a reference video without a foreign video
    of its key gets a preview row with no foreign file and no work item. *)
Example default_rules_no_match host params refDir foreignDir outputDir :
  matchPass (H := fragmentEngine) host params refDir foreignDir outputDir
    DEFAULT_PATTERNS ["Unmatched.mkv"] []
  = inr ([ {| ref := "Unmatched.mkv"; foreign := None; key := "unmatched" |} ], []).
Proof.
  rewrite (matchPass_unfold _ _ _ _ _ _ _ _ _ compileRules_default).
  reflexivity.
Qed.

(** The order of the rules matters: removing the extension before the
    separators, or after them, gives different keys. *)
Example rule_order_matters :
  ∃ ext sep,
    RegExp_new (RegExpEngine := fragmentEngine) "\.[^.]+$" = Some ext ∧
    RegExp_new (RegExpEngine := fragmentEngine) "[-_.\s]" = Some sep ∧
    buildMatchKey (H := fragmentEngine) "a.b.mkv" [ext; sep] = "ab" ∧
    buildMatchKey (H := fragmentEngine) "a.b.mkv" [sep; ext] = "abmkv".
Proof. eexists _, _. repeat split; by vm_compute. Qed.

(** With the default rules, ["Movie.MKV"] and ["movie.mkv"] have the
    same key. *)
Example default_key_ignores_case :
  buildMatchKey (H := fragmentEngine) "Movie.MKV" defaultRegexes = "movie" ∧
  buildMatchKey (H := fragmentEngine) "movie.mkv" defaultRegexes = "movie".
Proof. split; by vm_compute. Qed.

(** X1 at a state whose foreign folder is unset. *)
Lemma handleLoadJobs_needs_folders_witness :
  let st := {| refFolder := "/ref"; foreignFolder := ""; outputFolder := "/out";
               jobs := []; patterns := DEFAULT_PATTERNS; preview := [] |} in
  let props := {| parameters := noParameters; hasOnJobsChange := false |} in
  (Boolean (refFolder st) = false ∨ Boolean (foreignFolder st) = false
   ∨ Boolean (outputFolder st) = false) ∧
  handleLoadJobs (H := fragmentEngine) (hostAt 0 [] []) props st
  = (st, [Alert "Please select all three folders"]).
Proof.
  intros st props.
  assert (Boolean (refFolder st) = false ∨ Boolean (foreignFolder st) = false
          ∨ Boolean (outputFolder st) = false) as Hf by (right; left; reflexivity).
  split; [exact Hf|].
  exact (handleLoadJobs_needs_folders (H := fragmentEngine) (hostAt 0 [] []) props st Hf).
Defined.

(** X2 at a foreign folder that cannot be listed. *)
Lemma handleLoadJobs_listing_fails_witness :
  let st := {| refFolder := "/ref"; foreignFolder := "/missing"; outputFolder := "/out";
               jobs := []; patterns := DEFAULT_PATTERNS; preview := [] |} in
  let props := {| parameters := noParameters; hasOnJobsChange := false |} in
  let host := hostAt 0 ["a.mkv"] ["a.mkv"] in
  (listDirectory host (refFolder st) = None
   ∨ listDirectory host (foreignFolder st) = None) ∧
  (handleLoadJobs (H := fragmentEngine) host props st).1 = st ∧
  ∃ path, (handleLoadJobs (H := fragmentEngine) host props st).2
          = [ConsoleError (DirectoryError path);
             Alert "Failed to load directory contents"].
Proof.
  intros st props host.
  assert (listDirectory host (refFolder st) = None
          ∨ listDirectory host (foreignFolder st) = None) as Hl by (right; reflexivity).
  split; [exact Hl|].
  exact (handleLoadJobs_listing_fails (H := fragmentEngine) host props st
           eq_refl eq_refl eq_refl Hl).
Defined.

(** X4 at the default rules and the two files of C7. *)
Lemma matchPass_item_fields_witness :
  let host := hostAt 0 [] [] in
  let it := newItem host noParameters "/ref" "/foreign" "/out" 0
              "Show.S01E01.1080p.mkv" "show_s01e01_eng.mp4" in
  let rows := [ {| ref := "Show.S01E01.1080p.mkv";
                   foreign := Some "show_s01e01_eng.mp4"; key := "shows01e01" |} ] in
  compileRules (H := fragmentEngine) DEFAULT_PATTERNS = inr defaultRegexes ∧
  matchPass (H := fragmentEngine) host noParameters "/ref" "/foreign" "/out"
    DEFAULT_PATTERNS ["Show.S01E01.1080p.mkv"] ["show_s01e01_eng.mp4"]
  = inr (rows, [it]) ∧
  it ∈ [it] ∧
  ∃ r m,
    r ∈ filter (fun f => isVideo f = true) ["Show.S01E01.1080p.mkv"] ∧
    m ∈ filter (fun f => isVideo f = true) ["show_s01e01_eng.mp4"] ∧
    buildMatchKey (H := fragmentEngine) r defaultRegexes
    = buildMatchKey (H := fragmentEngine) m defaultRegexes ∧
    refVideo it = "/ref" +:+ "/" +:+ r ∧
    foreignVideo it = "/foreign" +:+ "/" +:+ m ∧
    outputVideo it = "/out" +:+ "/" +:+ r ∧
    firstSegmentAdjust it = orZero (p_firstSegmentAdjust noParameters) ∧
    lastSegmentAdjust it = orZero (p_lastSegmentAdjust noParameters) ∧
    skipSubtitles it = orFalse (p_noSubtitles noParameters) ∧
    status it = pending.
Proof.
  intros host it rows.
  assert (compileRules (H := fragmentEngine) DEFAULT_PATTERNS = inr defaultRegexes) as Hc
    by (vm_compute; reflexivity).
  assert (matchPass (H := fragmentEngine) host noParameters "/ref" "/foreign" "/out"
            DEFAULT_PATTERNS ["Show.S01E01.1080p.mkv"] ["show_s01e01_eng.mp4"]
          = inr (rows, [it])) as Hpass by (vm_compute; reflexivity).
  assert (it ∈ [it]) as Hin by constructor.
  do 3 (split; [assumption|]).
  exact (matchPass_item_fields (H := fragmentEngine)
           host noParameters "/ref" "/foreign" "/out"
           DEFAULT_PATTERNS defaultRegexes
           ["Show.S01E01.1080p.mkv"] ["show_s01e01_eng.mp4"] rows [it]
           Hc Hpass it Hin).
Defined.

End FurtherFragment.

(** ** The component as the user drives it *)

Section Component.
Context `{RegExpEngine}.

Lemma truthy_Some x p : truthy x = Some p → x = Some p ∧ Boolean p = true.
Proof.
  destruct x as [q|]; simpl; [|done].
  destruct (Boolean q) eqn:Hq; [|done]. by intros [= ->].
Qed.

Lemma truthy_idemp x : truthy (truthy x) = truthy x.
Proof.
  destruct x as [q|]; simpl; [|done].
  destruct (Boolean q) eqn:Hq; simpl; [by rewrite Hq|done].
Qed.

(** What a match pass that returns has computed. *)
Lemma matchPass_inr host params refDir foreignDir outputDir
    patterns refFiles foreignFiles rows items :
  matchPass host params refDir foreignDir outputDir patterns refFiles foreignFiles
  = inr (rows, items) →
  ∃ regexes,
    compileRules patterns = inr regexes ∧
    rows = rowOf regexes
             (forForeignVideos regexes (filter (fun f => isVideo f = true) foreignFiles) ∅)
           <$> filter (fun f => isVideo f = true) refFiles ∧
    items = itemsOfRows (newItem host params refDir foreignDir outputDir) 0 rows.
Proof.
  intros Hpass. destruct (compileRules patterns) as [e|regexes] eqn:Hc.
  - unfold matchPass in Hpass. by rewrite Hc in Hpass.
  - rewrite (matchPass_unfold _ _ _ _ _ _ _ _ _ Hc) in Hpass. simpl in Hpass.
    injection Hpass as <- <-. by exists regexes.
Qed.

(** The three outcomes of [handleLoadJobs]. *)
Lemma handleLoadJobs_cases host props st :
  handleLoadJobs host props st = (st, [Alert "Please select all three folders"])
  ∧ loadDisabled (render st) = true
  ∨ (∃ err, handleLoadJobs host props st
            = (st, [ConsoleError err; Alert "Failed to load directory contents"]))
    ∧ loadDisabled (render st) = false
  ∨ (∃ refFiles foreignFiles rows items,
       matchPass host (parameters props) (refFolder st) (foreignFolder st)
         (outputFolder st) (patterns st) refFiles foreignFiles = inr (rows, items) ∧
       handleLoadJobs host props st
       = ({| refFolder := refFolder st; foreignFolder := foreignFolder st;
             outputFolder := outputFolder st; jobs := items;
             patterns := patterns st; preview := rows |},
          onJobsChange props items))
    ∧ loadDisabled (render st) = false.
Proof.
  unfold handleLoadJobs, render. simpl.
  destruct (negb (Boolean (refFolder st)) || negb (Boolean (foreignFolder st))
            || negb (Boolean (outputFolder st))); [by left|].
  right.
  destruct (listing host (refFolder st)) as [e|refFiles]; simpl; [left; eauto|].
  destruct (listing host (foreignFolder st)) as [e|foreignFiles]; simpl; [left; eauto|].
  destruct (matchPass _ _ _ _ _ _ _ _) as [e|[rows items]] eqn:Hpass; [left; eauto|].
  right. split; [|done]. by exists refFiles, foreignFiles, rows, items.
Qed.

Lemma Consistent_initial : Consistent initialState.
Proof.
  exists (mkHost (fun _ => None) (fun _ => 0%N) (fun _ => "")),
    (mkParameters None None None), "", "", "". by split.
Qed.

Lemma Consistent_cleared st :
  Consistent {| refFolder := refFolder st; foreignFolder := foreignFolder st;
                outputFolder := outputFolder st; jobs := [];
                patterns := patterns st; preview := [] |}.
Proof.
  exists (mkHost (fun _ => None) (fun _ => 0%N) (fun _ => "")),
    (mkParameters None None None), "", "", "". by split.
Qed.

Lemma perform_Consistent a st : Consistent st → Consistent (perform a st).1.
Proof.
  intros Hst. destruct a as [type selected|host props|props| |i value]; simpl.
  - unfold handleSelectFolder. destruct (truthy selected); [|done]. by destruct type.
  - destruct (handleLoadJobs_cases host props st)
      as [[-> _]|[[(err & ->) _]|[(refFiles & foreignFiles & rows & items & Hpass & ->) _]]];
      [done..|].
    apply matchPass_inr in Hpass as (regexes & _ & Hrows & Hitems). simpl.
    exists host, (parameters props), (refFolder st), (foreignFolder st), (outputFolder st).
    simpl. split; [done|]. rewrite Hrows. apply Forall_fmap, Forall_forall.
    intros r _. simpl. apply truthy_idemp.
  - unfold handleAddToQueue. destruct (length (jobs st) =? 0); [done|].
    apply Consistent_cleared.
  - done.
  - done.
Qed.

Lemma session_Consistent actions st :
  Consistent st → Consistent (session actions st).1.
Proof.
  revert st. induction actions as [|a actions IH]; intros st Hst; [done|].
  simpl. destruct (available st a); [|by apply IH].
  pose proof (perform_Consistent a st Hst) as H1.
  destruct (perform a st) as [st1 events1]. simpl in H1.
  specialize (IH st1 H1). by destruct (session actions st1).
Qed.

(** X3: whatever the user does from the first render on, the pending jobs
    are the items of the matched rows of the preview, in the order of the
    rows and with the identifiers of one match pass, and no row of the
    preview has an empty foreign name. *)
Theorem session_jobs_follow_preview actions :
  Consistent (session actions initialState).1.
Proof. apply session_Consistent, Consistent_initial. Qed.

Lemma renderRow_matched rows :
  Forall (fun row => truthy (foreign row) = foreign row) rows →
  length (filter (fun tr => className tr = "") (renderRow <$> rows))
  = length (matchedRows rows).
Proof.
  unfold matchedRows. induction 1 as [|row rows Hrow _ IH]; [reflexivity|].
  rewrite fmap_cons, !filter_cons. unfold renderRow at 1. simpl. rewrite Hrow.
  destruct (foreign row) as [m|].
  - rewrite !decide_True by eauto. simpl. by rewrite IH.
  - rewrite !decide_False by (try (intros [? ?]); done). exact IH.
Qed.

(** X5: in every render of a session, the add-to-queue button is there
    exactly when the preview table has a row that is not marked [no-match],
    and the number in its text is the number of these rows. *)
Theorem session_button_counts_matched_rows actions :
  let view := render (session actions initialState).1 in
  addToQueueButton view
  = (let n := length (matchedTrs (previewTable view)) in
     if 0 <? n then Some (addToQueueLabel n) else None).
Proof.
  destruct (session_Consistent actions initialState Consistent_initial)
    as (host & params & rD & fD & oD & Hjobs & Hrows).
  simpl. unfold matchedTrs.
  assert (default [] (if 0 <? length (preview (session actions initialState).1)
                      then Some (renderRow <$> preview (session actions initialState).1)
                      else None)
          = renderRow <$> preview (session actions initialState).1) as ->.
  { by destruct (preview (session actions initialState).1). }
  rewrite (renderRow_matched _ Hrows), Hjobs, itemsOfRows_length. reflexivity.
Qed.

Lemma itemsOfRows_pending host params rD fD oD k rows :
  Forall (fun j => status j = pending) (itemsOfRows (newItem host params rD fD oD) k rows).
Proof.
  apply Forall_forall. intros it Hin.
  by apply itemsOfRows_elem in Hin as (j & row & m & _ & _ & ->).
Qed.

Lemma perform_handover a st js :
  OnAddToQueue js ∈ (perform a st).2 → js = jobs st ∧ js ≠ [].
Proof.
  destruct a as [type selected|host props|props| |i value]; simpl;
    try (intros Hin; by apply elem_of_nil in Hin).
  - destruct (handleLoadJobs_cases host props st)
      as [[-> _]|[[(err & ->) _]|[(refFiles & foreignFiles & rows & items & _ & ->) _]]];
      simpl; intros Hin.
    + by apply list_elem_of_singleton in Hin.
    + apply elem_of_cons in Hin as [?|Hin]; [done|].
      by apply list_elem_of_singleton in Hin.
    + unfold onJobsChange in Hin. destruct (hasOnJobsChange props).
      * by apply list_elem_of_singleton in Hin.
      * by apply elem_of_nil in Hin.
  - unfold handleAddToQueue. destruct (jobs st) as [|j js'] eqn:Hj; simpl; intros Hin.
    + by apply elem_of_nil in Hin.
    + apply elem_of_cons in Hin as [[= ->]|Hin]; [done|].
      unfold onJobsChange in Hin. destruct (hasOnJobsChange props).
      * by apply list_elem_of_singleton in Hin.
      * by apply elem_of_nil in Hin.
Qed.

Lemma session_handover actions st js :
  Consistent st →
  OnAddToQueue js ∈ (session actions st).2 →
  js ≠ [] ∧ Forall (fun j => status j = pending) js.
Proof.
  revert st. induction actions as [|a actions IH]; intros st Hst; simpl.
  - intros Hin. by apply elem_of_nil in Hin.
  - destruct (available st a); [|by apply IH].
    pose proof (perform_Consistent a st Hst) as H1.
    pose proof (perform_handover a st js) as H2.
    destruct (perform a st) as [st1 events1]. simpl in H1, H2.
    specialize (IH st1 H1). destruct (session actions st1) as [st2 events2].
    simpl in *. intros Hin. apply elem_of_app in Hin as [Hin|Hin]; [|by apply IH].
    destruct (H2 Hin) as [-> Hne]. split; [done|].
    destruct Hst as (host & params & rD & fD & oD & -> & _).
    apply itemsOfRows_pending.
Qed.

(** X6: whatever the user does from the first render on, every list handed
    to [onAddToQueue] is non-empty and holds pending items only. *)
Theorem session_hands_over_pending_jobs actions :
  Forall (fun event =>
            match event with
            | OnAddToQueue js => js ≠ [] ∧ Forall (fun j => status j = pending) js
            | _ => True
            end)
    (session actions initialState).2.
Proof.
  apply Forall_forall. intros [message|err|js|js] Hin; try done.
  by apply (session_handover actions initialState js Consistent_initial).
Qed.

Lemma perform_no_folder_alert a st :
  available st a = true →
  Alert "Please select all three folders" ∉ (perform a st).2.
Proof.
  destruct a as [type selected|host props|props| |i value]; simpl;
    try (intros _ Hin; by apply elem_of_nil in Hin).
  - intros Hav. apply negb_true_iff in Hav.
    destruct (handleLoadJobs_cases host props st)
      as [[_ Hd]|[[(err & ->) _]|[(refFiles & foreignFiles & rows & items & _ & ->) _]]];
      simpl; [simpl in *; congruence|..]; intros Hin.
    + apply elem_of_cons in Hin as [?|Hin]; [done|].
      by apply list_elem_of_singleton in Hin.
    + unfold onJobsChange in Hin. destruct (hasOnJobsChange props).
      * by apply list_elem_of_singleton in Hin.
      * by apply elem_of_nil in Hin.
  - intros _. unfold handleAddToQueue. destruct (length (jobs st) =? 0); simpl; intros Hin.
    + by apply elem_of_nil in Hin.
    + apply elem_of_cons in Hin as [?|Hin]; [done|].
      unfold onJobsChange in Hin. destruct (hasOnJobsChange props).
      * by apply list_elem_of_singleton in Hin.
      * by apply elem_of_nil in Hin.
Qed.

(** X7: [handleLoadJobs] shows the alert that asks for the folders exactly
    when the load button is rendered disabled, so no session, from any
    state, ever shows that alert. *)
Theorem folder_alert_only_behind_disabled_button host props st actions :
  ((handleLoadJobs host props st).2 = [Alert "Please select all three folders"]
   ↔ loadDisabled (render st) = true) ∧
  Alert "Please select all three folders" ∉ (session actions st).2.
Proof.
  split.
  - destruct (handleLoadJobs_cases host props st)
      as [[-> Hd]|[[(err & ->) Hd]|[(refFiles & foreignFiles & rows & items & _ & ->) Hd]]];
      rewrite Hd; simpl; [done|split; done|].
    split; [|done]. unfold onJobsChange. by destruct (hasOnJobsChange props).
  - revert st. induction actions as [|a actions IH]; intros st; simpl.
    + apply not_elem_of_nil.
    + destruct (available st a) eqn:Hav; [|apply IH].
      pose proof (perform_no_folder_alert a st Hav) as H1.
      destruct (perform a st) as [st1 events1]. specialize (IH st1).
      destruct (session actions st1) as [st2 events2]. simpl in *.
      intros Hin. apply elem_of_app in Hin as [Hin|Hin]; done.
Qed.

Lemma perform_patterns a st :
  available st a = true →
  length (patterns (perform a st).1)
  = length (patterns st) + match a with AddRegex => 1 | _ => 0 end.
Proof.
  destruct a as [type selected|host props|props| |i value]; simpl; intros _.
  - unfold handleSelectFolder. destruct (truthy selected); [|lia].
    destruct type; simpl; lia.
  - destruct (handleLoadJobs_cases host props st)
      as [[-> _]|[[(err & ->) _]|[(refFiles & foreignFiles & rows & items & _ & ->) _]]];
      simpl; lia.
  - unfold handleAddToQueue. destruct (length (jobs st) =? 0); simpl; lia.
  - rewrite length_app. simpl. lia.
  - rewrite length_insert. lia.
Qed.

(** X8: no action removes a rule: after a session, the rule editor has one
    rule more for each click on [+ Add Regex], and no rule less; from the
    first render on it never has fewer than the five default rules. *)
Theorem session_rule_count actions st :
  length (patterns (session actions st).1)
  = length (patterns st) + addRegexClicks actions ∧
  5 ≤ length (patterns (session actions initialState).1).
Proof.
  assert (∀ actions st,
            length (patterns (session actions st).1)
            = length (patterns st) + addRegexClicks actions) as Hcount.
  { clear. intros actions. induction actions as [|a actions IH]; intros st; simpl; [lia|].
    destruct (available st a) eqn:Hav.
    - pose proof (perform_patterns a st Hav) as H1.
      destruct (perform a st) as [st1 events1]. specialize (IH st1).
      destruct (session actions st1) as [st2 events2]. simpl in *.
      rewrite IH, H1. destruct a; simpl; lia.
    - rewrite IH. destruct a; simpl in *; try done; lia. }
  split; [apply Hcount|]. rewrite Hcount. simpl. lia.
Qed.

Lemma perform_folders a st :
  loadDisabled (render st) = false → loadDisabled (render (perform a st).1) = false.
Proof.
  intros Hst. destruct a as [type selected|host props|props| |i value]; simpl in *.
  - unfold handleSelectFolder. destruct (truthy selected) as [path|] eqn:Hp; [|done].
    apply truthy_Some in Hp as [_ Hp].
    apply orb_false_iff in Hst as [Hst H3]. apply orb_false_iff in Hst as [H1 H2].
    destruct type; simpl; rewrite ?Hp, ?H1, ?H2, ?H3; reflexivity.
  - destruct (handleLoadJobs_cases host props st)
      as [[-> _]|[[(err & ->) _]|[(refFiles & foreignFiles & rows & items & _ & ->) _]]];
      done.
  - unfold handleAddToQueue. by destruct (length (jobs st) =? 0).
  - done.
  - done.
Qed.

(** X12: once the three folders are chosen the load button stays enabled:
    no action, a cancelled folder dialog included, unsets a folder. *)
Theorem load_button_stays_enabled actions st :
  loadDisabled (render st) = false →
  loadDisabled (render (session actions st).1) = false.
Proof.
  revert st. induction actions as [|a actions IH]; intros st Hst; [done|].
  simpl. destruct (available st a); [|by apply IH].
  pose proof (perform_folders a st Hst) as H1.
  destruct (perform a st) as [st1 events1]. specialize (IH st1 H1).
  by destruct (session actions st1).
Qed.

(** X13: a folder dialog that is cancelled, or that returns an empty path,
    changes nothing; one that returns a path puts it in the input of its
    type and changes nothing else, so that three dialogs, one of each type,
    enable the load button from any state. *)
Theorem handleSelectFolder_sets_one_folder type selected st :
  (truthy selected = None → handleSelectFolder type selected st = st) ∧
  (∀ path, truthy selected = Some path →
     let view := render st in
     let view' := render (handleSelectFolder type selected st) in
     refInput view' = (if type is FolderRef then path else refInput view) ∧
     foreignInput view' = (if type is FolderForeign then path else foreignInput view) ∧
     outputInput view' = (if type is FolderOutput then path else outputInput view) ∧
     patternInputs view' = patternInputs view ∧
     previewTable view' = previewTable view ∧
     addToQueueButton view' = addToQueueButton view) ∧
  (∀ a b c, Boolean a = true → Boolean b = true → Boolean c = true →
     loadDisabled (render (handleSelectFolder FolderOutput (Some c)
                             (handleSelectFolder FolderForeign (Some b)
                                (handleSelectFolder FolderRef (Some a) st)))) = false).
Proof.
  split; [|split].
  - unfold handleSelectFolder. by intros ->.
  - intros path Hp. unfold handleSelectFolder. rewrite Hp. by destruct type.
  - intros a b c Ha Hb Hc. unfold handleSelectFolder. simpl.
    rewrite Ha, Hb, Hc. simpl. by rewrite Ha, Hb, Hc.
Qed.

(** X14: loading twice in a row with the same host is loading once: the
    second pass replaces the preview and the jobs by the same ones, and
    nothing accumulates. *)
Theorem handleLoadJobs_idempotent host props st :
  handleLoadJobs host props (handleLoadJobs host props st).1
  = handleLoadJobs host props st.
Proof.
  unfold handleLoadJobs.
  destruct (negb (Boolean (refFolder st)) || negb (Boolean (foreignFolder st))
            || negb (Boolean (outputFolder st))) eqn:G; simpl; [by rewrite G|].
  destruct (listing host (refFolder st)) as [e|refFiles] eqn:L1; simpl;
    [by rewrite G, L1|].
  destruct (listing host (foreignFolder st)) as [e|foreignFiles] eqn:L2; simpl;
    [rewrite G, L1; simpl; by rewrite L2|].
  destruct (matchPass _ _ _ _ _ _ _ _) as [e|[rows items]] eqn:P; simpl;
    rewrite G, L1; simpl; rewrite L2; simpl; by rewrite P.
Qed.

(** X15: from a state without preview and jobs, a load that finds matches,
    followed by add-to-queue, hands the matched items over and brings the
    component back to the state it started from. *)
Theorem load_then_add_returns st host props :
  jobs st = [] → preview st = [] →
  jobs (handleLoadJobs host props st).1 ≠ [] →
  handleAddToQueue props (handleLoadJobs host props st).1
  = (st, OnAddToQueue (jobs (handleLoadJobs host props st).1) :: onJobsChange props []).
Proof.
  intros Hj Hp Hne.
  destruct (handleLoadJobs_cases host props st)
    as [[E _]|[[(err & E) _]|[(refFiles & foreignFiles & rows & items & Hpass & E) Hd]]];
    rewrite E in *; simpl in *; try done.
  unfold handleAddToQueue. simpl. destruct items as [|it items]; [done|]. simpl.
  destruct st. simpl in *. by subst.
Qed.

(** X16: emptying the text of a rule disables the rule: the match pass
    runs as if the rule were not in the list. *)
Theorem emptied_rule_is_skipped host params refDir foreignDir outputDir
    st i refFiles foreignFiles :
  i < length (patterns st) →
  matchPass host params refDir foreignDir outputDir
    (patterns (handlePatternChange i "" st)) refFiles foreignFiles
  = matchPass host params refDir foreignDir outputDir
      (delete i (patterns st)) refFiles foreignFiles.
Proof.
  intros Hi. unfold matchPass, handlePatternChange. simpl.
  by rewrite insert_take_drop, delete_take_drop, compileRules_skip_empty.
Qed.

(** What the foreign lookup holds at a key. *)
Lemma forForeignVideos_spec regexes foreignVideos k :
  (forForeignVideos regexes foreignVideos ∅ !! k = None
   ↔ ∀ g, g ∈ foreignVideos → buildMatchKey g regexes ≠ k) ∧
  (∀ g, forForeignVideos regexes foreignVideos ∅ !! k = Some g →
        g ∈ foreignVideos ∧ buildMatchKey g regexes = k).
Proof.
  rewrite forForeignVideos_lookup, lookup_empty. split.
  - destruct (last _) as [f|] eqn:Hl.
    + split; [done|]. intros Hall.
      apply last_Some_elem_of, list_elem_of_filter in Hl as [Hk Hf].
      by destruct (Hall f Hf).
    + split; [|done]. intros _ g Hg Hk. apply last_None in Hl.
      assert (g ∈ filter (fun f => buildMatchKey f regexes = k) foreignVideos) as Hin
        by (by apply list_elem_of_filter).
      rewrite Hl in Hin. by apply elem_of_nil in Hin.
  - intros g. destruct (last _) as [f|] eqn:Hl; [|done]. intros [= ->].
    apply last_Some_elem_of, list_elem_of_filter in Hl as [Hk Hf]. done.
Qed.

(** X17: the row of a reference video has no foreign file exactly when no
    filtered foreign video has its key; otherwise its foreign file is a
    filtered foreign video with that key. *)
Theorem row_matched_iff_key_is_shared host params refDir foreignDir outputDir
    patterns regexes refFiles foreignFiles i r :
  compileRules patterns = inr regexes →
  filter (fun f => isVideo f = true) refFiles !! i = Some r →
  ∃ rows items row,
    matchPass host params refDir foreignDir outputDir patterns refFiles foreignFiles
    = inr (rows, items) ∧
    rows !! i = Some row ∧ ref row = r ∧ key row = buildMatchKey r regexes ∧
    (foreign row = None
     ↔ ∀ g, g ∈ filter (fun f => isVideo f = true) foreignFiles →
            buildMatchKey g regexes ≠ buildMatchKey r regexes) ∧
    (∀ g, foreign row = Some g →
          g ∈ filter (fun f => isVideo f = true) foreignFiles ∧
          buildMatchKey g regexes = buildMatchKey r regexes).
Proof.
  intros Hc Hr. eexists _, _, _.
  split; [by apply matchPass_unfold|]. simpl.
  split; [by rewrite list_lookup_fmap, Hr|]. simpl.
  rewrite forForeignVideos_truthy. do 2 (split; [done|]).
  apply forForeignVideos_spec.
Qed.

(** X18: a reference video is matched whenever the foreign folder has a
    video of the same name up to the case of its letters (the extension
    included); the file it is matched to has the same key. *)
Theorem same_name_up_to_case_is_matched host params refDir foreignDir outputDir
    patterns regexes refFiles foreignFiles r g :
  compileRules patterns = inr regexes →
  r ∈ filter (fun f => isVideo f = true) refFiles →
  g ∈ filter (fun f => isVideo f = true) foreignFiles →
  toLowerCase g = toLowerCase r →
  ∃ rows items g',
    matchPass host params refDir foreignDir outputDir patterns refFiles foreignFiles
    = inr (rows, items) ∧
    {| ref := r; foreign := Some g'; key := buildMatchKey r regexes |} ∈ rows ∧
    g' ∈ filter (fun f => isVideo f = true) foreignFiles ∧
    buildMatchKey g' regexes = buildMatchKey r regexes.
Proof.
  intros Hc Hr Hg Hcase.
  assert (buildMatchKey g regexes = buildMatchKey r regexes) as Hk
    by (unfold buildMatchKey; by rewrite Hcase).
  destruct (forForeignVideos_spec regexes
              (filter (fun f => isVideo f = true) foreignFiles)
              (buildMatchKey r regexes)) as [Hnone Hsome].
  destruct (forForeignVideos regexes _ ∅ !! buildMatchKey r regexes) as [g'|] eqn:Hl.
  - destruct (Hsome g' eq_refl) as [Hg' Hk'].
    eexists _, _, g'. split; [by apply matchPass_unfold|]. simpl.
    split; [|done]. apply list_elem_of_fmap. exists r. split; [|done].
    unfold rowOf. by rewrite forForeignVideos_truthy, Hl.
  - destruct (proj1 Hnone eq_refl g Hg Hk).
Qed.

Lemma trimStart_head s c :
  head (chars (trimStart s)) = Some c → isWhiteSpace c = false.
Proof.
  induction s as [|a s IH]; [done|]. simpl.
  destruct (isWhiteSpace a) eqn:Ha; [done|]. simpl. by intros [= <-].
Qed.

Lemma trimEnd_prefix s : chars (trimEnd s) `prefix_of` chars s.
Proof.
  induction s as [|a s IH]; [done|]. simpl.
  destruct (trimEnd s) as [|b t] eqn:Ht.
  - destruct (isWhiteSpace a); [apply prefix_nil|]. simpl.
    apply prefix_cons, prefix_nil.
  - simpl. by apply prefix_cons.
Qed.

Lemma trimEnd_last s c :
  last (chars (trimEnd s)) = Some c → isWhiteSpace c = false.
Proof.
  induction s as [|a s IH]; [done|]. simpl.
  destruct (trimEnd s) as [|b t] eqn:Ht.
  - destruct (isWhiteSpace a) eqn:Ha; [done|]. simpl. by intros [= <-].
  - simpl chars. rewrite last_cons_cons. exact IH.
Qed.

(** X19: a match key neither starts nor ends with white space, whatever
    the rules are. *)
Theorem buildMatchKey_is_trimmed filename regexes :
  (∀ c, head (chars (buildMatchKey filename regexes)) = Some c →
        isWhiteSpace c = false) ∧
  (∀ c, last (chars (buildMatchKey filename regexes)) = Some c →
        isWhiteSpace c = false).
Proof.
  unfold buildMatchKey, trim. split; intros c Hc.
  - apply (trimStart_head (forPatterns regexes (toLowerCase filename))).
    destruct (trimEnd_prefix (trimStart (forPatterns regexes (toLowerCase filename))))
      as [rest Hrest].
    rewrite Hrest. destruct (chars (trimEnd _)); [done|]. done.
  - by apply trimEnd_last in Hc.
Qed.

End Component.

Section KeysOfTheFragment.
Import JsRegExp FragmentReference Samples.


Lemma trimStart_sublist s : chars (trimStart s) `sublist_of` chars s.
Proof.
  induction s as [|c s IH]; [constructor|]. simpl.
  destruct (isWhiteSpace c); [by apply sublist_cons|done].
Qed.

Lemma trim_sublist s : chars (trim s) `sublist_of` chars s.
Proof.
  unfold trim. etrans; [|apply trimStart_sublist].
  destruct (trimEnd_prefix (trimStart s)) as [k Hk]. rewrite Hk.
  by apply sublist_inserts_r.
Qed.






Lemma matchAt_class neg atoms i c s :
  matchAt (mkRegex (NClass neg atoms)) i (String c s)
  = if classMatches neg atoms c then Some (S i) else None.
Proof. unfold matchAt. simpl. unfold CharacterSetMatcher. simpl. by destruct (classMatches _ _ _). Qed.

Lemma removeFrom_class neg atoms s : ∀ i,
  Forall (fun c => classMatches neg atoms c = false)
    (chars (removeFrom (mkRegex (NClass neg atoms)) i s 0)).
Proof.
  induction s as [|c s IH]; intros i; [constructor|].
  cbn [removeFrom]. rewrite matchAt_class.
  destruct (classMatches neg atoms c) eqn:Hc.
  - replace (i <? S i) with true by (symmetry; apply Nat.ltb_lt; lia).
    replace (S i - i - 1) with 0 by lia. apply IH.
  - simpl. constructor; [done|apply IH].
Qed.

Lemma forPatterns_app (rules1 rules2 : list Regex) key :
  forPatterns (H := fragmentEngine) (rules1 ++ rules2) key
  = forPatterns (H := fragmentEngine) rules2 (forPatterns (H := fragmentEngine) rules1 key).
Proof. revert key. induction rules1 as [|re rules1 IH]; intros key; [done|]. apply IH. Qed.

(** X21: when the last rule is a character class, no character of the
    class is left in the key. With the default rules, whose last rule is
    the class of the separators, no key has a dash, an underscore, a dot or
    a white space, whatever the file name. *)
Theorem last_class_rule_clears_its_characters filename (rules : list Regex) neg atoms :
  Forall (fun c => classMatches neg atoms c = false)
    (chars (buildMatchKey (H := fragmentEngine) filename
              (rules ++ [mkRegex (NClass neg atoms)]))) ∧
  Forall (fun c => c ≠ "-"%char ∧ c ≠ "_"%char ∧ c ≠ "."%char ∧ isWhiteSpace c = false)
    (chars (buildMatchKey (H := fragmentEngine) filename defaultRegexes)).
Proof.
  assert (∀ rules neg atoms,
    Forall (fun c => classMatches neg atoms c = false)
      (chars (buildMatchKey (H := fragmentEngine) filename
                (rules ++ [mkRegex (NClass neg atoms)])))) as Hgen.
  { clear. intros rules neg atoms. unfold buildMatchKey. rewrite forPatterns_app.
    apply Forall_forall. intros c Hc.
    pose proof (elem_of_sublist _ _ _ Hc (trim_sublist _)) as Hc'.
    cbn [forPatterns] in Hc'. change (String_replace ?k ?re) with (replace k re) in Hc'.
    rewrite replace_removeOccurrences in Hc'.
    pose proof (removeFrom_class neg atoms
                  (forPatterns (H := fragmentEngine) rules (toLowerCase filename)) 0) as Hall.
    rewrite Forall_forall in Hall. by apply Hall. }
  split; [apply Hgen|].
  pose proof (Hgen (take 4 defaultRegexes) false
                [CChar "-"; CChar "_"; CChar "."; CSpace false]) as Hdef.
  change (take 4 defaultRegexes
          ++ [mkRegex (NClass false [CChar "-"; CChar "_"; CChar "."; CSpace false])])
    with defaultRegexes in Hdef.
  eapply Forall_impl; [exact Hdef|]. intros c Hc.
  unfold classMatches in Hc. simpl in Hc.
  apply orb_false_iff in Hc as [H1 Hc]. apply orb_false_iff in Hc as [H2 Hc].
  apply orb_false_iff in Hc as [H3 Hc]. apply orb_false_iff in Hc as [H4 _].
  repeat split; try (intros ->; discriminate). done.
Qed.

End KeysOfTheFragment.

Section ComponentSamples.
Import JsRegExp Samples.

(** X12 at a state with its three folders set: a cancelled dialog, a load
    and a new rule later, the button is still enabled. *)
Lemma load_button_stays_enabled_witness :
  let st := stateWith DEFAULT_PATTERNS in
  let props := {| parameters := noParameters; hasOnJobsChange := true |} in
  let actions := [Browse FolderRef None;
                  LoadPreview (hostAt 0 ["a.mkv"] ["A.mp4"]) props; AddRegex] in
  loadDisabled (render st) = false ∧
  loadDisabled (render (session (H := fragmentEngine) actions st).1) = false.
Proof.
  intros st props actions.
  assert (loadDisabled (render st) = false) as Hst by reflexivity.
  split; [exact Hst|].
  exact (load_button_stays_enabled (H := fragmentEngine) actions st Hst).
Defined.

(** X15 at the default rules, one reference video and its foreign video. *)
Lemma load_then_add_returns_witness :
  let st := stateWith DEFAULT_PATTERNS in
  let props := {| parameters := noParameters; hasOnJobsChange := true |} in
  let host := hostAt 0 ["Show.S01E01.1080p.mkv"] ["show_s01e01_eng.mp4"] in
  jobs st = [] ∧ preview st = [] ∧
  jobs (handleLoadJobs (H := fragmentEngine) host props st).1 ≠ [] ∧
  handleAddToQueue props (handleLoadJobs (H := fragmentEngine) host props st).1
  = (st, OnAddToQueue (jobs (handleLoadJobs (H := fragmentEngine) host props st).1)
         :: onJobsChange props []).
Proof.
  intros st props host.
  assert (jobs st = []) as Hj by reflexivity.
  assert (preview st = []) as Hp by reflexivity.
  assert (jobs (handleLoadJobs (H := fragmentEngine) host props st).1 ≠ []) as Hne
    by (intros E; vm_compute in E; discriminate E).
  do 3 (split; [assumption|]).
  exact (load_then_add_returns (H := fragmentEngine) st host props Hj Hp Hne).
Defined.

(** X16 at the fourth default rule, the one of the language markers. *)
Lemma emptied_rule_is_skipped_witness :
  let st := stateWith DEFAULT_PATTERNS in
  3 < length (patterns st) ∧
  matchPass (H := fragmentEngine) (hostAt 0 [] []) noParameters "/ref" "/foreign" "/out"
    (patterns (handlePatternChange 3 "" st)) ["show_eng.mkv"] ["show.mp4"]
  = matchPass (H := fragmentEngine) (hostAt 0 [] []) noParameters "/ref" "/foreign" "/out"
      (delete 3 (patterns st)) ["show_eng.mkv"] ["show.mp4"].
Proof.
  intros st.
  assert (3 < length (patterns st)) as Hi by (simpl; lia).
  split; [exact Hi|].
  exact (emptied_rule_is_skipped (H := fragmentEngine)
           (hostAt 0 [] []) noParameters "/ref" "/foreign" "/out"
           st 3 ["show_eng.mkv"] ["show.mp4"] Hi).
Defined.

(** X17 at the default rules, a reference video and a foreign video with
    another key. *)
Lemma row_matched_iff_key_is_shared_witness :
  compileRules (H := fragmentEngine) DEFAULT_PATTERNS = inr defaultRegexes ∧
  filter (fun f => isVideo f = true) ["notes.txt"; "Unmatched.mkv"] !! 0
  = Some "Unmatched.mkv" ∧
  ∃ rows items row,
    matchPass (H := fragmentEngine) (hostAt 0 [] []) noParameters "/ref" "/foreign" "/out"
      DEFAULT_PATTERNS ["notes.txt"; "Unmatched.mkv"] ["other.mp4"]
    = inr (rows, items) ∧
    rows !! 0 = Some row ∧ ref row = "Unmatched.mkv" ∧
    key row = buildMatchKey (H := fragmentEngine) "Unmatched.mkv" defaultRegexes ∧
    (foreign row = None
     ↔ ∀ g, g ∈ filter (fun f => isVideo f = true) ["other.mp4"] →
            buildMatchKey (H := fragmentEngine) g defaultRegexes
            ≠ buildMatchKey (H := fragmentEngine) "Unmatched.mkv" defaultRegexes) ∧
    (∀ g, foreign row = Some g →
          g ∈ filter (fun f => isVideo f = true) ["other.mp4"] ∧
          buildMatchKey (H := fragmentEngine) g defaultRegexes
          = buildMatchKey (H := fragmentEngine) "Unmatched.mkv" defaultRegexes).
Proof.
  assert (compileRules (H := fragmentEngine) DEFAULT_PATTERNS = inr defaultRegexes) as Hc
    by (vm_compute; reflexivity).
  assert (filter (fun f => isVideo f = true) ["notes.txt"; "Unmatched.mkv"] !! 0
          = Some "Unmatched.mkv") as Hr by (vm_compute; reflexivity).
  do 2 (split; [assumption|]).
  exact (row_matched_iff_key_is_shared (H := fragmentEngine)
           (hostAt 0 [] []) noParameters "/ref" "/foreign" "/out"
           DEFAULT_PATTERNS defaultRegexes ["notes.txt"; "Unmatched.mkv"] ["other.mp4"]
           0 "Unmatched.mkv" Hc Hr).
Defined.

(** X18 at the default rules, ["Movie.MKV"] and ["movie.mkv"]. *)
Lemma same_name_up_to_case_is_matched_witness :
  compileRules (H := fragmentEngine) DEFAULT_PATTERNS = inr defaultRegexes ∧
  "Movie.MKV" ∈ filter (fun f => isVideo f = true) ["Movie.MKV"] ∧
  "movie.mkv" ∈ filter (fun f => isVideo f = true) ["movie.mkv"; "readme.md"] ∧
  toLowerCase "movie.mkv" = toLowerCase "Movie.MKV" ∧
  ∃ rows items g',
    matchPass (H := fragmentEngine) (hostAt 0 [] []) noParameters "/ref" "/foreign" "/out"
      DEFAULT_PATTERNS ["Movie.MKV"] ["movie.mkv"; "readme.md"] = inr (rows, items) ∧
    {| ref := "Movie.MKV"; foreign := Some g';
       key := buildMatchKey (H := fragmentEngine) "Movie.MKV" defaultRegexes |} ∈ rows ∧
    g' ∈ filter (fun f => isVideo f = true) ["movie.mkv"; "readme.md"] ∧
    buildMatchKey (H := fragmentEngine) g' defaultRegexes
    = buildMatchKey (H := fragmentEngine) "Movie.MKV" defaultRegexes.
Proof.
  assert (compileRules (H := fragmentEngine) DEFAULT_PATTERNS = inr defaultRegexes) as Hc
    by (vm_compute; reflexivity).
  assert ("Movie.MKV" ∈ filter (fun f => isVideo f = true) ["Movie.MKV"]) as Hr
    by (vm_compute; constructor).
  assert ("movie.mkv" ∈ filter (fun f => isVideo f = true) ["movie.mkv"; "readme.md"]) as Hg
    by (vm_compute; constructor).
  assert (toLowerCase "movie.mkv" = toLowerCase "Movie.MKV") as Hl by reflexivity.
  do 4 (split; [assumption|]).
  exact (same_name_up_to_case_is_matched (H := fragmentEngine)
           (hostAt 0 [] []) noParameters "/ref" "/foreign" "/out"
           DEFAULT_PATTERNS defaultRegexes ["Movie.MKV"] ["movie.mkv"; "readme.md"]
           "Movie.MKV" "movie.mkv" Hc Hr Hg Hl).
Defined.

End ComponentSamples.
